(** * Symbol extraction and subroutine boundaries of the Amiga assembly
      extension: [SymbolFile.readDocument] and the local-label prefix of the
      completion provider.

    Symbols are JavaScript objects: arrays such as [labels], [dcLabel] and
    [labelsBeforeRts] hold references to them, the boundary pass mutates them
    in place and tests membership by identity.  The development therefore
    keeps an explicit object store ([list Symbol], a reference is an index)
    and the arrays of a [SymbolFile] hold references. *)

From Stdlib Require Import Ascii String.
From stdpp Require Import base option list strings.

Set Default Proof Using "Type".

(** ** Strings

    A string is a sequence of code units in the range 0..255. *)

Module Str.

(** [c.toLowerCase()] on one code unit of the range 0..255: the letters
    A..Z and the Latin-1 capitals (all of U+00C0..U+00DE but the
    multiplication sign) move up by 32. *)
Definition lowerChar (c : ascii) : ascii :=
  let n := nat_of_ascii c in
  if ((65 <=? n) && (n <=? 90))
     || ((192 <=? n) && (n <=? 222) && negb (n =? 215))
  then ascii_of_nat (n + 32) else c.

(** [s.toLowerCase()] *)
Fixpoint toLowerCase (s : string) : string :=
  match s with
  | EmptyString => EmptyString
  | String c s' => String (lowerChar c) (toLowerCase s')
  end.

(** [s.indexOf(p) === 0] *)
Fixpoint startsWith (s p : string) : bool :=
  match p, s with
  | EmptyString, _ => true
  | String c p', String d s' => Ascii.eqb c d && startsWith s' p'
  | String _ _, EmptyString => false
  end.

(** [s.indexOf(p) >= 0] *)
Fixpoint includes (s p : string) : bool :=
  startsWith s p ||
  match s with
  | EmptyString => false
  | String _ s' => includes s' p
  end.

(** [s.replace(c, "")] with a one-character string pattern: only the first
    occurrence goes. *)
Fixpoint removeFirst (c : ascii) (s : string) : string :=
  match s with
  | EmptyString => EmptyString
  | String d s' => if Ascii.eqb d c then s' else String d (removeFirst c s')
  end.

(** [s.replace(/c/g, '')]: every occurrence goes. *)
Fixpoint removeAll (c : ascii) (s : string) : string :=
  match s with
  | EmptyString => EmptyString
  | String d s' =>
      if Ascii.eqb d c then removeAll c s' else String d (removeAll c s')
  end.

(** [s.length > 0], also the truthiness of a string *)
Definition nonEmpty (s : string) : bool :=
  match s with EmptyString => false | String _ _ => true end.

(** the regular expression class [\w] *)
Definition isWordChar (c : ascii) : bool :=
  let n := nat_of_ascii c in
  ((48 <=? n) && (n <=? 57)) || ((65 <=? n) && (n <=? 90))
  || ((97 <=? n) && (n <=? 122)) || (n =? 95).

(** the longest run of word characters a string starts with *)
Fixpoint wordRun (s : string) : string :=
  match s with
  | EmptyString => EmptyString
  | String c s' => if isWordChar c then String c (wordRun s') else EmptyString
  end.


(** [s.substring(a, b)] for [a <= b] *)
Definition substring (s : string) (a b : nat) : string :=
  String.substring a (b - a) s.

(** [s.substring(a)] *)
Definition substringFrom (s : string) (a : nat) : string :=
  String.substring a (String.length s - a) s.

End Str.

Definition colon : ascii := ":"%char.
Definition quote : ascii := "034"%char.

(** ** Positions and ranges of the editor API *)

Record Position := { line : nat; character : nat }.
Record Range := { start : Position; end_ : Position }.

Definition isBeforeOrEqual (p q : Position) : bool :=
  (line p <? line q) || ((line p =? line q) && (character p <=? character q)).

Definition posMin (p q : Position) : Position :=
  if isBeforeOrEqual p q then p else q.
Definition posMax (p q : Position) : Position :=
  if isBeforeOrEqual p q then q else p.

(** [r.union(other)]: the range from the smaller start to the larger end. *)
Definition union (r other : Range) : Range :=
  {| start := posMin (start other) (start r);
     end_ := posMax (end_ other) (end_ r) |}.

(** [r.contains(other)] for a range argument *)
Definition contains (r other : Range) : bool :=
  isBeforeOrEqual (start r) (start other)
  && isBeforeOrEqual (end_ other) (end_ r).

(** ** Parsed lines

    [ASMLine] is built by the parser from the text of one line;
    [readDocument] reads the fields below and the results of its two symbol
    queries, which are taken as given with the line. *)

Record ASMLine := {
  label : string;
  labelRange : Range;
  mnemonic : string;
  mnemonicRange : Range;
  instruction : string;
  data : string;
  dataRange : Range;
  variable : string;
  variableRange : Range;
  value : option string;
  (** the pair returned by [getSymbolFromLabelOrVariable()], either
      component possibly [undefined] *)
  symbolFromLabelOrVariable : option string * option Range;
  (** the array returned by [getSymbolFromData()] *)
  symbolFromData : list (option string * option Range)
}.

(** ** Symbols and symbol files *)

Definition Uri := string.

(** A [Symbol] object.  Its [file] field always points back to the
    [SymbolFile] that created it, kept here as that file's uri. *)
Record Symbol := {
  getLabel : string;
  getFile : Uri;
  getRange : Range;
  getValue : option string;
  getParent : string
}.

(** [new Symbol(label, file, range, value)]: the parent starts as the label. *)
Definition newSymbol (l : string) (f : Uri) (r : Range) (v : option string)
  : Symbol :=
  {| getLabel := l; getFile := f; getRange := r; getValue := v;
     getParent := l |}.

Definition setRange (r : Range) (s : Symbol) : Symbol :=
  {| getLabel := getLabel s; getFile := getFile s; getRange := r;
     getValue := getValue s; getParent := getParent s |}.

Definition setParent (p : string) (s : Symbol) : Symbol :=
  {| getLabel := getLabel s; getFile := getFile s; getRange := getRange s;
     getValue := getValue s; getParent := p |}.

(** References into the object store. *)
Abbreviation ref := nat.
Abbreviation Store := (list Symbol).

Record SymbolFile := {
  uri : Uri;
  definedSymbols : list ref;
  referredSymbols : list ref;
  variables : list ref;
  labels : list ref;
  macros : list ref;
  subroutines : list string;
  dcLabel : list ref;
  includeDir : string;
  includedFiles : list ref
}.

(** [SymbolFile.clear] *)
Definition clear (f : SymbolFile) : SymbolFile :=
  {| uri := uri f; definedSymbols := []; referredSymbols := [];
     variables := []; labels := []; macros := []; subroutines := [];
     dcLabel := []; includeDir := ""; includedFiles := [] |}.

(** The state of the first loop of [readDocument]: the object store, the
    file being filled ([this]) and the two locals of the loop. *)
Record Scan := {
  heap : Store;
  this : SymbolFile;
  lastLabel : option ref;
  labelsBeforeRts : list ref
}.

Section Updates.
Context (st : Scan).

Definition withFile (f : SymbolFile) : Scan :=
  {| heap := heap st; this := f; lastLabel := lastLabel st;
     labelsBeforeRts := labelsBeforeRts st |}.

Definition withLastLabel (r : option ref) : Scan :=
  {| heap := heap st; this := this st; lastLabel := r;
     labelsBeforeRts := labelsBeforeRts st |}.

(** [labelsBeforeRts.push(r)] *)
Definition pushBeforeRts (r : ref) : Scan :=
  {| heap := heap st; this := this st; lastLabel := lastLabel st;
     labelsBeforeRts := labelsBeforeRts st ++ [r] |}.

(** [new Symbol(l, this, r, v)]: the object is appended to the store and
    its index is the reference. *)
Definition alloc (l : string) (r : Range) (v : option string) : Scan * ref :=
  ({| heap := heap st ++ [newSymbol l (uri (this st)) r v];
      this := this st; lastLabel := lastLabel st;
      labelsBeforeRts := labelsBeforeRts st |},
   length (heap st)).
End Updates.

Section Pushes.
Context (r : ref) (f : SymbolFile).

Definition pushDefined : SymbolFile :=
  {| uri := uri f; definedSymbols := definedSymbols f ++ [r];
     referredSymbols := referredSymbols f; variables := variables f;
     labels := labels f; macros := macros f; subroutines := subroutines f;
     dcLabel := dcLabel f; includeDir := includeDir f;
     includedFiles := includedFiles f |}.

Definition pushReferred : SymbolFile :=
  {| uri := uri f; definedSymbols := definedSymbols f;
     referredSymbols := referredSymbols f ++ [r]; variables := variables f;
     labels := labels f; macros := macros f; subroutines := subroutines f;
     dcLabel := dcLabel f; includeDir := includeDir f;
     includedFiles := includedFiles f |}.

Definition pushVariable : SymbolFile :=
  {| uri := uri f; definedSymbols := definedSymbols f;
     referredSymbols := referredSymbols f; variables := variables f ++ [r];
     labels := labels f; macros := macros f; subroutines := subroutines f;
     dcLabel := dcLabel f; includeDir := includeDir f;
     includedFiles := includedFiles f |}.

Definition pushLabel : SymbolFile :=
  {| uri := uri f; definedSymbols := definedSymbols f;
     referredSymbols := referredSymbols f; variables := variables f;
     labels := labels f ++ [r]; macros := macros f;
     subroutines := subroutines f; dcLabel := dcLabel f;
     includeDir := includeDir f; includedFiles := includedFiles f |}.

Definition pushMacro : SymbolFile :=
  {| uri := uri f; definedSymbols := definedSymbols f;
     referredSymbols := referredSymbols f; variables := variables f;
     labels := labels f; macros := macros f ++ [r];
     subroutines := subroutines f; dcLabel := dcLabel f;
     includeDir := includeDir f; includedFiles := includedFiles f |}.

Definition pushDcLabel : SymbolFile :=
  {| uri := uri f; definedSymbols := definedSymbols f;
     referredSymbols := referredSymbols f; variables := variables f;
     labels := labels f; macros := macros f; subroutines := subroutines f;
     dcLabel := dcLabel f ++ [r]; includeDir := includeDir f;
     includedFiles := includedFiles f |}.

Definition pushIncludedFile : SymbolFile :=
  {| uri := uri f; definedSymbols := definedSymbols f;
     referredSymbols := referredSymbols f; variables := variables f;
     labels := labels f; macros := macros f; subroutines := subroutines f;
     dcLabel := dcLabel f; includeDir := includeDir f;
     includedFiles := includedFiles f ++ [r] |}.
End Pushes.

Definition pushSubroutine (s : string) (f : SymbolFile) : SymbolFile :=
  {| uri := uri f; definedSymbols := definedSymbols f;
     referredSymbols := referredSymbols f; variables := variables f;
     labels := labels f; macros := macros f;
     subroutines := subroutines f ++ [s]; dcLabel := dcLabel f;
     includeDir := includeDir f; includedFiles := includedFiles f |}.

Definition setIncludeDir (s : string) (f : SymbolFile) : SymbolFile :=
  {| uri := uri f; definedSymbols := definedSymbols f;
     referredSymbols := referredSymbols f; variables := variables f;
     labels := labels f; macros := macros f; subroutines := subroutines f;
     dcLabel := dcLabel f; includeDir := s; includedFiles := includedFiles f |}.

(** ** The first loop of [readDocument] *)

(** Reading a field of the object behind a reference.  Every reference the
    program holds is allocated (see [scan_wf] below), so the defaults are
    never reached. *)
Definition labelOf (h : Store) (r : ref) : string :=
  from_option getLabel "" (h !! r).

Definition emptyRange : Range :=
  {| start := {| line := 0; character := 0 |};
     end_ := {| line := 0; character := 0 |} |}.

Definition rangeOf (h : Store) (r : ref) : Range :=
  from_option getRange emptyRange (h !! r).

(** [new Symbol(l, this, r, v)] followed by one [push] of the new object. *)
Definition allocInto (push : ref → SymbolFile → SymbolFile)
    (l : string) (r : Range) (v : option string) (st : Scan) : Scan * ref :=
  let '(st1, s) := alloc st l r v in
  (withFile st1 (push s (this st1)), s).

(** [instruct.indexOf("macro") === 0] *)
Definition isMacro (instruct : string) : bool :=
  Str.startsWith instruct "macro".

(** [lastLabel?.getLabel()] as the left operand of a string [+]: a missing
    label is rendered as the text [undefined]. *)
Definition lastLabelText (st : Scan) : string :=
  match lastLabel st with
  | Some r => labelOf (heap st) r
  | None => "undefined"
  end.

(** Lines 1283-1297: defined symbol, or else the referred symbols of the
    data field and the mnemonic. *)
Definition recordSymbols (l : ASMLine) (st : Scan) : Scan :=
  match symbolFromLabelOrVariable l with
  | (Some symbol, Some range) =>
      fst (allocInto pushDefined symbol range None st)
  | _ =>
      let st1 :=
        foldl (λ acc res,
                 match res with
                 | (Some symbol, Some range) =>
                     fst (allocInto pushReferred symbol range None acc)
                 | _ => acc
                 end) st (symbolFromData l) in
      if Str.nonEmpty (mnemonic l)
      then fst (allocInto pushReferred (mnemonic l) (mnemonicRange l) None st1)
      else st1
  end.

(** Lines 1299-1319: the label of the line, or the name of a macro given in
    the data field. *)
Definition recordLabel (instruct : string) (l : ASMLine) (st : Scan) : Scan :=
  if Str.nonEmpty (label l) then
    let lbl := Str.removeFirst colon (label l) in
    let isLocal := Str.startsWith lbl "." in
    let lbl := if isLocal then lastLabelText st +:+ lbl else lbl in
    if isMacro instruct then
      fst (allocInto pushMacro lbl (labelRange l) None st)
    else
      let '(st1, s) := allocInto pushLabel lbl (labelRange l) None st in
      if isLocal then st1 else withLastLabel st1 (Some s)
  else if isMacro instruct then
    fst (allocInto pushMacro (data l) (dataRange l) None st)
  else st.

(** Lines 1320-1322 *)
Definition recordVariable (l : ASMLine) (st : Scan) : Scan :=
  if Str.nonEmpty (variable l)
  then fst (allocInto pushVariable (variable l) (variableRange l) (value l) st)
  else st.

Definition isData (instruct : string) : bool :=
  Str.startsWith instruct "dc" || Str.startsWith instruct "ds"
  || Str.startsWith instruct "incbin".

(** Lines 1323-1339: the chain on the instruction. *)
Definition recordDirective (instruct : string) (l : ASMLine) (st : Scan)
  : Scan :=
  if Str.includes instruct "bsr" then
    withFile st (pushSubroutine (data l) (this st))
  else if isData instruct then
    match lastLabel st with
    | Some r => withFile st (pushDcLabel r (this st))
    | None => st
    end
  else if Str.includes instruct "rts" then
    match lastLabel st with
    | Some r => pushBeforeRts st r
    | None => st
    end
  else if bool_decide (instruct = "incdir") then
    withFile st (setIncludeDir (Str.removeAll quote (data l)) (this st))
  else if bool_decide (instruct = "include") then
    let '(st1, s) :=
      allocInto pushIncludedFile (Str.removeAll quote (data l))
        (dataRange l) None st in
    withFile st1 (pushDefined s (this st1))
  else st.

(** One iteration of the loop over the lines. *)
Definition scanLine (st : Scan) (l : ASMLine) : Scan :=
  let st1 := recordSymbols l st in
  let instruct := Str.toLowerCase (instruction l) in
  let st2 := recordLabel instruct l st1 in
  let st3 := recordVariable l st2 in
  recordDirective instruct l st3.

Definition scan (st : Scan) (document : list ASMLine) : Scan :=
  foldl scanLine st document.

(** ** The second loop: subroutine boundaries *)

Record Track := {
  objects : Store;
  inSub : bool;
  lastParent : option ref
}.

(** One iteration of the loop over [this.labels]; [subs] is
    [this.subroutines] and [before] is [labelsBeforeRts]. *)
Definition trackLabel (subs : list string) (before : list ref)
    (t : Track) (l : ref) : Track :=
  let t1 :=
    if bool_decide (labelOf (objects t) l ∈ subs) then
      {| objects := objects t; inSub := true; lastParent := Some l |}
    else
      match inSub t, lastParent t with
      | true, Some p =>
          let h1 := alter (setParent (labelOf (objects t) p)) l (objects t) in
          let range := rangeOf h1 p in
          let h2 := alter (setRange (union range (rangeOf h1 l))) p h1 in
          {| objects := h2; inSub := true; lastParent := Some p |}
      | _, _ => t
      end in
  if bool_decide (l ∈ before) then
    {| objects := objects t1; inSub := false; lastParent := lastParent t1 |}
  else t1.

Definition track (subs : list string) (before : list ref)
    (t : Track) (ls : list ref) : Track :=
  foldl (trackLabel subs before) t ls.

(** The state in which the first loop starts. *)
Definition scanStart (h : Store) (f : SymbolFile) : Scan :=
  {| heap := h; this := clear f; lastLabel := None; labelsBeforeRts := [] |}.

(** The state in which the second loop starts. *)
Definition trackStart (st : Scan) : Track :=
  {| objects := heap st; inSub := false; lastParent := None |}.

Definition inferBoundaries (st : Scan) : Track :=
  track (subroutines (this st)) (labelsBeforeRts st) (trackStart st)
    (labels (this st)).

(** [SymbolFile.readDocument], on the store [h] and the file object [f],
    for a document given as the [ASMLine] of each of its lines.  The result
    is the store and the file object after the call. *)
Definition readDocument (h : Store) (f : SymbolFile)
    (document : list ASMLine) : Store * SymbolFile :=
  let st := scan (scanStart h f) document in
  (objects (inferBoundaries st), this st).

(** ** What a line is, read off its fields *)

(** [asmLine.instruction.toLowerCase()] *)
Definition instruct (l : ASMLine) : string := Str.toLowerCase (instruction l).

(** [asmLine.label.replace(":", "")] *)
Definition cleanLabel (l : ASMLine) : string :=
  Str.removeFirst colon (label l).

(** the test [isLocal] of the loop *)
Definition isLocalLine (l : ASMLine) : bool :=
  Str.startsWith (cleanLabel l) ".".

(** a line whose label is pushed on [labels] *)
Definition isLabelLine (l : ASMLine) : bool :=
  Str.nonEmpty (label l) && negb (isMacro (instruct l)).

(** a line whose label becomes [lastLabel] *)
Definition isGlobalLabelLine (l : ASMLine) : bool :=
  isLabelLine l && negb (isLocalLine l).

(** Which branch of the instruction chain a line takes. *)
Definition isCall (l : ASMLine) : bool := Str.includes (instruct l) "bsr".
Definition isDataLine (l : ASMLine) : bool :=
  negb (isCall l) && isData (instruct l).
Definition isReturnLine (l : ASMLine) : bool :=
  negb (isCall l) && negb (isData (instruct l))
  && Str.includes (instruct l) "rts".

(** The nearest global label line of a sequence of lines, scanning back from
    its end. *)
Definition nearestGlobal (doc : list ASMLine) : option ASMLine :=
  last (filter (λ l, isGlobalLabelLine l = true) doc).

(** The nearest label line of either kind. *)
Definition nearestLabel (doc : list ASMLine) : option ASMLine :=
  last (filter (λ l, isLabelLine l = true) doc).

(** The text put in front of a local label that follows the lines [pre]. *)
Definition globalPrefix (pre : list ASMLine) : string :=
  match nearestGlobal pre with
  | Some g => cleanLabel g
  | None => "undefined"
  end.

(** The text stored for the label of line [l] when it follows [pre]. *)
Definition storedLabel (pre : list ASMLine) (l : ASMLine) : string :=
  if isLocalLine l then globalPrefix pre +:+ cleanLabel l else cleanLabel l.

Definition parentOf (h : Store) (r : ref) : string :=
  from_option getParent "" (h !! r).


(** ** Relations between states of the first loop *)

(** Everything the loop holds only grows at its end. *)
Record grows (st st' : Scan) : Prop := {
  g_heap : heap st `prefix_of` heap st';
  g_uri : uri (this st') = uri (this st);
  g_defined : definedSymbols (this st) `prefix_of` definedSymbols (this st');
  g_referred :
    referredSymbols (this st) `prefix_of` referredSymbols (this st');
  g_variables : variables (this st) `prefix_of` variables (this st');
  g_labels : labels (this st) `prefix_of` labels (this st');
  g_macros : macros (this st) `prefix_of` macros (this st');
  g_subroutines : subroutines (this st) `prefix_of` subroutines (this st');
  g_dcLabel : dcLabel (this st) `prefix_of` dcLabel (this st');
  g_included : includedFiles (this st) `prefix_of` includedFiles (this st');
  g_before : labelsBeforeRts st `prefix_of` labelsBeforeRts st'
}.

(** A step that only allocates and records defined symbols, referred
    symbols or variables. *)
Record sameCore (st st' : Scan) : Prop := {
  sc_heap : heap st `prefix_of` heap st';
  sc_uri : uri (this st') = uri (this st);
  sc_labels : labels (this st') = labels (this st);
  sc_macros : macros (this st') = macros (this st);
  sc_subroutines : subroutines (this st') = subroutines (this st);
  sc_dcLabel : dcLabel (this st') = dcLabel (this st);
  sc_includeDir : includeDir (this st') = includeDir (this st);
  sc_included : includedFiles (this st') = includedFiles (this st);
  sc_lastLabel : lastLabel st' = lastLabel st;
  sc_before : labelsBeforeRts st' = labelsBeforeRts st
}.

(** The references of [labels] are allocated and distinct, and [lastLabel]
    and [labelsBeforeRts] hold label objects. *)
Record scan_wf (st : Scan) : Prop := {
  wf_bound : Forall (λ r, r < length (heap st)) (labels (this st));
  wf_nodup : NoDup (labels (this st));
  wf_last : ∀ r, lastLabel st = Some r → r ∈ labels (this st);
  wf_before : ∀ r, r ∈ labelsBeforeRts st → r ∈ labels (this st)
}.

(** ** The object a line allocates for its label *)

(** The reference of the object allocated for the label (or macro name) of
    a line: the next free index once the symbols of the line are recorded. *)
Definition labelRef (st : Scan) (l : ASMLine) : ref :=
  length (heap (recordSymbols l st)).

(** The text a label is stored under, seen from the state the line meets. *)
Definition labelText (st : Scan) (l : ASMLine) : string :=
  if isLocalLine l then lastLabelText st +:+ cleanLabel l else cleanLabel l.

(** The object allocated for the label of a line, or for the macro name
    of an unlabelled macro header. *)
Definition labelSymbol (st : Scan) (l : ASMLine) : Symbol :=
  if Str.nonEmpty (label l)
  then newSymbol (labelText (recordSymbols l st) l) (uri (this st))
         (labelRange l) None
  else newSymbol (data l) (uri (this st)) (dataRange l) None.


(** The object [r] is the one pushed on [labels] for line [l] when [l]
    follows the lines [pre]. *)
Definition labelObject (h : Store) (f : SymbolFile) (pre : list ASMLine)
    (l : ASMLine) (r : ref) : Prop :=
  labels (this (scan (scanStart h f) (pre ++ [l]))) =
  labels (this (scan (scanStart h f) pre)) ++ [r].

(** ** Sample lines and documents *)

Definition lineRange (n a b : nat) : Range :=
  {| start := {| line := n; character := a |};
     end_ := {| line := n; character := b |} |}.

(** Line [n] with a label in column 0, an instruction and a data field. *)
Definition sampleLine (n : nat) (lbl ins dat : string) : ASMLine :=
  {| label := lbl; labelRange := lineRange n 0 (String.length lbl);
     mnemonic := ins; mnemonicRange := lineRange n 8 (8 + String.length ins);
     instruction := ins;
     data := dat; dataRange := lineRange n 16 (16 + String.length dat);
     variable := ""; variableRange := lineRange n 0 0; value := None;
     symbolFromLabelOrVariable :=
       if Str.nonEmpty lbl
       then (Some lbl, Some (lineRange n 0 (String.length lbl)))
       else (None, None);
     symbolFromData := [] |}.

Definition newFile (u : Uri) : SymbolFile :=
  {| uri := u; definedSymbols := []; referredSymbols := [];
     variables := []; labels := []; macros := []; subroutines := [];
     dcLabel := []; includeDir := ""; includedFiles := [] |}.

(** [FOO:] and then [.bar] *)
Definition fooLine : ASMLine := sampleLine 0 "FOO:" "" "".
Definition barLine : ASMLine := sampleLine 1 ".bar" "" "".
Definition dcLine : ASMLine := sampleLine 2 "" "dc.b" "1".

(** ** The claims of the specification that the code does not meet, as stated *)

(** The label of a local label line is stored as its literal text. *)
Definition storesLiteralLocalText (h : Store) (f : SymbolFile)
    (pre : list ASMLine) (l : ASMLine) (post : list ASMLine) : Prop :=
  isLabelLine l = true → isLocalLine l = true →
  ∃ r, labelObject h f pre l r
       ∧ labelOf (readDocument h f (pre ++ l :: post)).1 r = cleanLabel l.

(** A data directive records the nearest label line of either kind. *)
Definition dataOwnerIsNearestLabel (h : Store) (f : SymbolFile)
    (pre : list ASMLine) (l : ASMLine) : Prop :=
  isDataLine l = true →
  ∀ n, nearestLabel (pre ++ [l]) = Some n →
  ∃ r, dcLabel (this (scan (scanStart h f) (pre ++ [l]))) =
         dcLabel (this (scan (scanStart h f) pre)) ++ [r]
       ∧ rangeOf (heap (scan (scanStart h f) (pre ++ [l]))) r = labelRange n.

(** Inside a subroutine, a label that is itself a call target leaves the
    current parent as it is. *)
Definition nestedTargetKeepsParent (subs : list string) (before : list ref)
    (t : Track) (l : ref) : Prop :=
  inSub t = true →
  ∀ p, lastParent t = Some p →
  labelOf (objects t) l ∈ subs →
  lastParent (trackLabel subs before t l) = Some p.

(** [name macro] and [ macro name] *)
Definition macroLine : ASMLine := sampleLine 1 "mymac" "MACRO" "".
Definition macroDataLine : ASMLine := sampleLine 1 "" "macro" "mymac".

(** Two call targets [A] and [B], then [A:], [B:], [C:], [D:] and a
    return. *)
Definition nestedDoc : list ASMLine :=
  [ sampleLine 0 "" "bsr" "A"; sampleLine 1 "" "bsr" "B";
    sampleLine 2 "A:" "" ""; sampleLine 3 "B:" "" "";
    sampleLine 4 "C:" "" ""; sampleLine 5 "D:" "" "";
    sampleLine 6 "" "rts" "" ].

(** One call target [SUB], then [SUB:], [label2:] and a return. *)
Definition subDoc : list ASMLine :=
  [ sampleLine 0 "" "bsr" "SUB"; sampleLine 1 "SUB:" "" "";
    sampleLine 2 "label2:" "" ""; sampleLine 3 "" "rts" "" ].

Definition nestedScan : Scan := scan (scanStart [] (newFile "a.s")) nestedDoc.


(** A label that follows a call target, with no label from the call target
    on recorded at a return line before it, gets the call target as parent
    and lies in its range. *)
Definition laterLabelGetsParent (h : Store) (f : SymbolFile)
    (doc : list ASMLine) (pre : list ref) (sub : ref) (mid : list ref)
    (l2 : ref) (rest : list ref) : Prop :=
  labels (readDocument h f doc).2 = pre ++ sub :: mid ++ l2 :: rest →
  labelOf (readDocument h f doc).1 sub ∈ subroutines (readDocument h f doc).2 →
  (∀ x, x ∈ sub :: mid → x ∉ labelsBeforeRts (scan (scanStart h f) doc)) →
  parentOf (readDocument h f doc).1 l2 = labelOf (readDocument h f doc).1 sub
  ∧ contains (rangeOf (readDocument h f doc).1 sub)
      (rangeOf (readDocument h f doc).1 l2) = true.

(** ** Calling [readDocument] again

    A second call allocates its objects after those of the first one, so
    the references differ while the objects read through them are the same.
    [shiftScan h0 st] is the state [st] with its objects allocated after
    those of the store [h0]. *)

Definition shiftRefs (n : nat) (rs : list ref) : list ref :=
  (λ r, n + r) <$> rs.

Definition shiftFile (n : nat) (f : SymbolFile) : SymbolFile :=
  {| uri := uri f;
     definedSymbols := shiftRefs n (definedSymbols f);
     referredSymbols := shiftRefs n (referredSymbols f);
     variables := shiftRefs n (variables f);
     labels := shiftRefs n (labels f);
     macros := shiftRefs n (macros f);
     subroutines := subroutines f;
     dcLabel := shiftRefs n (dcLabel f);
     includeDir := includeDir f;
     includedFiles := shiftRefs n (includedFiles f) |}.

Definition shiftScan (h0 : Store) (st : Scan) : Scan :=
  {| heap := h0 ++ heap st;
     this := shiftFile (length h0) (this st);
     lastLabel := (λ r, length h0 + r) <$> lastLabel st;
     labelsBeforeRts := shiftRefs (length h0) (labelsBeforeRts st) |}.

Definition shiftTrack (h0 : Store) (t : Track) : Track :=
  {| objects := h0 ++ objects t;
     inSub := inSub t;
     lastParent := (λ r, length h0 + r) <$> lastParent t |}.

(** A push that goes through the shift of references. *)
Definition shiftsThrough (n : nat) (push : ref → SymbolFile → SymbolFile)
  : Prop :=
  ∀ r f, push (n + r) (shiftFile n f) = shiftFile n (push r f).

(** The objects behind an array of references. *)
Definition deref (h : Store) (rs : list ref) : list (option Symbol) :=
  (λ r, h !! r) <$> rs.

(** The content of a symbol file: its arrays read through the store. *)
Record Contents := {
  c_uri : Uri;
  c_definedSymbols : list (option Symbol);
  c_referredSymbols : list (option Symbol);
  c_variables : list (option Symbol);
  c_labels : list (option Symbol);
  c_macros : list (option Symbol);
  c_subroutines : list string;
  c_dcLabel : list (option Symbol);
  c_includeDir : string;
  c_includedFiles : list (option Symbol)
}.

Definition contents (w : Store * SymbolFile) : Contents :=
  {| c_uri := uri w.2;
     c_definedSymbols := deref w.1 (definedSymbols w.2);
     c_referredSymbols := deref w.1 (referredSymbols w.2);
     c_variables := deref w.1 (variables w.2);
     c_labels := deref w.1 (labels w.2);
     c_macros := deref w.1 (macros w.2);
     c_subroutines := subroutines w.2;
     c_dcLabel := deref w.1 (dcLabel w.2);
     c_includeDir := includeDir w.2;
     c_includedFiles := deref w.1 (includedFiles w.2) |}.

(** ** The completion provider: the word a lookup is made for *)


(** [text.match(/^(\w+)\b/)], as the matched text: the word characters a
    line starts with, when there is at least one. *)
Definition matchLeadingWord (t : string) : option string :=
  let w := Str.wordRun t in
  if Str.nonEmpty w then Some w else None.

(** The loop [for (let i = line; i >= 0; i--)] that looks for the previous
    global label; [labelPrefix] stays empty when no line matches.  The
    lines visited are lines of the document. *)
Fixpoint findLabelPrefix (texts : list string) (i : nat) : string :=
  match texts !! i ≫= matchLeadingWord with
  | Some m => m
  | None =>
      match i with
      | 0 => ""
      | S j => findLabelPrefix texts j
      end
  end.





(** ** The objects a line allocates, block by block *)

(** The test of line 1284: both components of the pair are defined. *)
Definition definesSymbol (l : ASMLine) : bool :=
  match symbolFromLabelOrVariable l with
  | (Some _, Some _) => true
  | _ => false
  end.

(** The object pushed on [definedSymbols] by line 1285. *)
Definition definedObjects (u : Uri) (l : ASMLine) : list Symbol :=
  match symbolFromLabelOrVariable l with
  | (Some symbol, Some range) => [newSymbol symbol u range None]
  | _ => []
  end.

(** The objects pushed on [referredSymbols] by lines 1287-1296: the
    symbols of the data field, then the mnemonic. *)
Definition referredObjects (u : Uri) (l : ASMLine) : list Symbol :=
  if definesSymbol l then []
  else
    omap (λ res, match res with
                 | (Some symbol, Some range) =>
                     Some (newSymbol symbol u range None)
                 | _ => None
                 end) (symbolFromData l)
    ++ (if Str.nonEmpty (mnemonic l)
        then [newSymbol (mnemonic l) u (mnemonicRange l) None] else []).

(** The object pushed on [variables] by line 1321. *)
Definition variableObjects (u : Uri) (l : ASMLine) : list Symbol :=
  if Str.nonEmpty (variable l)
  then [newSymbol (variable l) u (variableRange l) (value l)] else [].

(** The object pushed on [includedFiles] and [definedSymbols] by lines
    1336-1338. *)
Definition includeObjects (u : Uri) (l : ASMLine) : list Symbol :=
  if bool_decide (instruct l = "include")
  then [newSymbol (Str.removeAll quote (data l)) u (dataRange l) None]
  else [].

(** The object pushed on [macros] by line 1308 or 1318, for a line that
    follows the lines [pre]. *)
Definition macroObjects (u : Uri) (pre : list ASMLine) (l : ASMLine)
  : list Symbol :=
  if isMacro (instruct l) then
    [if Str.nonEmpty (label l)
     then newSymbol (storedLabel pre l) u (labelRange l) None
     else newSymbol (data l) u (dataRange l) None]
  else [].

(** Each line of a document with the lines before it. *)
Fixpoint withPrefixesFrom (pre doc : list ASMLine)
  : list (list ASMLine * ASMLine) :=
  match doc with
  | [] => []
  | l :: doc' => (pre, l) :: withPrefixesFrom (pre ++ [l]) doc'
  end.

Definition withPrefixes (doc : list ASMLine) : list (list ASMLine * ASMLine) :=
  withPrefixesFrom [] doc.

(** A reference held by an array of the file other than [labels] and
    [dcLabel]. *)
Definition otherRef (f : SymbolFile) (r : ref) : Prop :=
  r ∈ definedSymbols f ∨ r ∈ referredSymbols f ∨ r ∈ variables f
  ∨ r ∈ macros f ∨ r ∈ includedFiles f.

(** The references of [labels] and those of the other arrays are allocated
    and apart. *)
Record scan_sep (st : Scan) : Prop := {
  sep_labels : Forall (λ r, r < length (heap st)) (labels (this st));
  sep_others :
    ∀ r, otherRef (this st) r →
         r < length (heap st) ∧ r ∉ labels (this st)
}.

(** The object pushed on [labels] by line 1310, for a line that follows the
    lines [pre]. *)
Definition labelObjects (u : Uri) (pre : list ASMLine) (l : ASMLine)
  : list Symbol :=
  if isLabelLine l
  then [newSymbol (storedLabel pre l) u (labelRange l) None] else [].

(** [incdir] lines *)
Definition isIncdir (l : ASMLine) : Prop := instruct l = "incdir".

(** What the boundary loop keeps true of its state, for the labels [L] of
    the file and the store [H] the loop starts from. *)
Record track_inv (subs : list string) (L : list ref) (H : Store)
    (t : Track) : Prop := {
  ti_label : ∀ r, labelOf (objects t) r = labelOf H r;
  ti_parent_target :
    ∀ p, lastParent t = Some p → p ∈ L ∧ labelOf H p ∈ subs;
  ti_target_own :
    ∀ r, labelOf H r ∈ subs → parentOf (objects t) r = parentOf H r;
  ti_parent :
    ∀ r, parentOf (objects t) r = parentOf H r
         ∨ ∃ p, p ∈ L ∧ labelOf H p ∈ subs
                ∧ parentOf (objects t) r = labelOf H p;
  ti_range_grows :
    ∀ r, contains (rangeOf (objects t) r) (rangeOf H r) = true;
  ti_range_kept :
    ∀ r, labelOf H r ∉ subs → rangeOf (objects t) r = rangeOf H r
}.

(** ** The completion provider: showing and merging the completions *)

(** The text shown for a label found under [label] (line 144):
    [label.substring(labelPrefix.length)]. *)
Definition completionText (labelPrefix label : string) : string :=
  Str.substringFrom label (String.length labelPrefix).

(** A JavaScript [Map] with string keys: the entries in insertion order.
    [set] replaces the value of a key that is present, in place, and puts a
    new key at the end. *)
Fixpoint mapSet {V} (k : string) (v : V) (m : list (string * V))
  : list (string * V) :=
  match m with
  | [] => [(k, v)]
  | (k', v') :: m' =>
      if decide (k' = k) then (k', v) :: m' else (k', v') :: mapSet k v m'
  end.

Section CleanAndReorder.
Context {Item : Type}.
(** [c.label.toString()] *)
Context (itemLabel : Item → string).

(** The map [fileMap] after the loop of [cleanAndReorder]. *)
Definition fileMap (completions : list Item) : list (string * Item) :=
  foldl (λ m c, mapSet (itemLabel c) c m) [] completions.

(** [cleanAndReorder]: [Array.from(fileMap.values())] *)
Definition cleanAndReorder (completions : list Item) : list Item :=
  (fileMap completions).*2.

End CleanAndReorder.

(** Completion items with a label and a sort text, as the file listing
    builds them. *)
Record FileItem := { fileLabel : string; fileSortText : string }.

Definition sampleItems : list FileItem :=
  [ {| fileLabel := "a.i"; fileSortText := "Ba.i" |};
    {| fileLabel := "lib/"; fileSortText := "Alib/" |};
    {| fileLabel := "a.i"; fileSortText := "other" |} ].

(** A document without call instructions. *)
Definition plainDoc : list ASMLine := [fooLine; barLine; dcLine].

(** ** Versions and the choice of the download (the download manager)

    The fields of a [Version] are JavaScript numbers, set by [parseInt]:
    [NaN], or a value.  The values ([V], the numbers other than [NaN], with
    the two zeros taken as one) are compared by [<], taken here as a
    boolean order [ltV] on them; a comparison with [NaN] is false, and so
    is [NaN === NaN]. *)

Module Download.

Section Numbers.
Context {V : Type} `{EqDecision V} (ltV : V → V → bool).

(** [a < b] *)
Definition numLt (a b : option V) : bool :=
  match a, b with
  | Some x, Some y => ltV x y
  | _, _ => false
  end.

(** [a > b] *)
Definition numGt (a b : option V) : bool := numLt b a.

(** [a === b] *)
Definition numEq (a b : option V) : bool :=
  match a, b with
  | Some x, Some y => bool_decide (x = y)
  | _, _ => false
  end.

End Numbers.

Record Version {V : Type} := {
  major : option V;
  minor : option V;
  increment : option V
}.
Global Arguments Version : clear implicits.

Record TagInfo {V : Type} := {
  name : string;
  zipball_url : string;
  extension : option string;
  version : Version V
}.
Global Arguments TagInfo : clear implicits.

Section Versions.
Context {V : Type} `{EqDecision V} (ltV : V → V → bool).

(** [Version.compare]: 1 when [other] is greater, -1 when [this] is. *)
Definition compare (this other : Version V) : Z :=
  if numGt ltV (major other) (major this) then 1
  else if numLt ltV (major other) (major this) then -1
  else if numGt ltV (minor other) (minor this) then 1
  else if numLt ltV (minor other) (minor this) then -1
  else if numGt ltV (increment other) (increment this) then 1
  else if numLt ltV (increment other) (increment this) then -1
  else 0.

(** [Version.isCompatible] *)
Definition isCompatible (this other : Version V) : bool :=
  numEq (major this) (major other) && numEq (minor this) (minor other).

(** [DownloadManager.getOsName], on [process.platform] *)
Definition getOsName (platform : string) : string :=
  if bool_decide (platform = "win32") then "windows"
  else if bool_decide (platform = "darwin") then "osx"
  else "debian".

(** [DownloadManager.getBranchName], on [process.platform] *)
Definition getBranchName (platform : string) : string :=
  if bool_decide (platform = "win32") then "windows_x64"
  else if bool_decide (platform = "darwin") then "osx"
  else "debian_x64".

(** [!tag.extension]: no extension, or an empty one *)
Definition noExtension (t : TagInfo V) : bool :=
  match extension t with
  | None => true
  | Some e => negb (Str.nonEmpty e)
  end.

(** The two tests a tag passes before it can become [bestTagInfo]. *)
Definition eligible (osName : string) (v : Version V) (t : TagInfo V) : bool :=
  (noExtension t || bool_decide (extension t = Some osName))
  && isCompatible v (version t).

(** One iteration of the loop over [tagInfos] in [getZipURL]. *)
Definition keepBest (osName : string) (v : Version V)
    (bestTagInfo : option (TagInfo V)) (tag : TagInfo V)
  : option (TagInfo V) :=
  if noExtension tag || bool_decide (extension tag = Some osName) then
    if isCompatible v (version tag)
       && match bestTagInfo with
          | None => true
          | Some best => bool_decide (0 < compare (version best) (version tag))%Z
          end
    then Some tag else bestTagInfo
  else bestTagInfo.

(** [DownloadManager.getZipURL]; [tagInfos] is what [listTagsFromGitHub]
    returns, [None] when it throws. *)
Definition getZipURL (platform branchURL : string) (v : Version V)
    (tagInfos : option (list (TagInfo V))) : Version V * string :=
  let fallback :=
    (v, branchURL +:+ "/" +:+ getBranchName platform +:+ ".zip") in
  match tagInfos with
  | Some tags =>
      match foldl (keepBest (getOsName platform) v) None tags with
      | Some best => (version best, zipball_url best)
      | None => fallback
      end
  | None => fallback
  end.

End Versions.

End Download.

(** Versions over the integers, for instances. *)
Definition ver (a b c : Z) : Download.Version Z :=
  {| Download.major := Some a; Download.minor := Some b;
     Download.increment := Some c |}.

Definition tag (n : string) (e : option string) (v : Download.Version Z)
  : Download.TagInfo Z :=
  {| Download.name := n; Download.zipball_url := "https://zip/" +:+ n;
     Download.extension := e; Download.version := v |}.

Definition sampleTags : list (Download.TagInfo Z) :=
  [ tag "1.2.3" None (ver 1 2 3); tag "1.2.7-osx" (Some "osx") (ver 1 2 7);
    tag "1.2.5" None (ver 1 2 5); tag "1.3.0" None (ver 1 3 0);
    tag "1.2.9-windows" (Some "windows") (ver 1 2 9) ].

(** A version none of whose fields is [NaN]. *)
Definition noNaN {V : Type} (v : Download.Version V) : Prop :=
  is_Some (Download.major v) ∧ is_Some (Download.minor v)
  ∧ is_Some (Download.increment v).
(** ** Strings: basic facts *)

Lemma startsWith_refl s : Str.startsWith s s = true.
Proof.
  induction s as [|c s IH]; simpl; [done|].
  by rewrite Ascii.eqb_refl.
Qed.




Lemma removeAll_clean c s :
  Str.removeAll c (Str.removeAll c s) = Str.removeAll c s.
Proof.
  induction s as [|d s IH]; simpl; [done|].
  destruct (Ascii.eqb d c) eqn:E; simpl; [done|].
  by rewrite E, IH.
Qed.



(** ** Ranges: inclusion is a preorder and a union includes both parts *)

Lemma isBeforeOrEqual_refl p : isBeforeOrEqual p p = true.
Proof.
  unfold isBeforeOrEqual.
  rewrite Nat.eqb_refl, Nat.leb_refl. by rewrite orb_true_r.
Qed.

Lemma isBeforeOrEqual_spec p q :
  isBeforeOrEqual p q = true ↔
  line p < line q ∨ (line p = line q ∧ character p ≤ character q).
Proof.
  unfold isBeforeOrEqual.
  rewrite orb_true_iff, andb_true_iff, Nat.ltb_lt, Nat.eqb_eq, Nat.leb_le.
  done.
Qed.

Lemma isBeforeOrEqual_trans p q r :
  isBeforeOrEqual p q = true → isBeforeOrEqual q r = true →
  isBeforeOrEqual p r = true.
Proof. rewrite !isBeforeOrEqual_spec. lia. Qed.

Lemma isBeforeOrEqual_total p q :
  isBeforeOrEqual p q = false → isBeforeOrEqual q p = true.
Proof.
  intros H. apply isBeforeOrEqual_spec.
  destruct (isBeforeOrEqual q p) eqn:E.
  - by apply isBeforeOrEqual_spec in E.
  - apply not_true_iff_false in H, E.
    rewrite isBeforeOrEqual_spec in H, E. lia.
Qed.

Lemma posMin_l p q : isBeforeOrEqual (posMin p q) p = true.
Proof.
  unfold posMin. destruct (isBeforeOrEqual p q) eqn:E.
  - apply isBeforeOrEqual_refl.
  - by apply isBeforeOrEqual_total.
Qed.

Lemma posMin_r p q : isBeforeOrEqual (posMin p q) q = true.
Proof.
  unfold posMin. destruct (isBeforeOrEqual p q) eqn:E; [done|].
  apply isBeforeOrEqual_refl.
Qed.

Lemma posMax_l p q : isBeforeOrEqual p (posMax p q) = true.
Proof.
  unfold posMax. destruct (isBeforeOrEqual p q) eqn:E; [done|].
  apply isBeforeOrEqual_refl.
Qed.

Lemma posMax_r p q : isBeforeOrEqual q (posMax p q) = true.
Proof.
  unfold posMax. destruct (isBeforeOrEqual p q) eqn:E.
  - apply isBeforeOrEqual_refl.
  - by apply isBeforeOrEqual_total.
Qed.

Lemma contains_refl r : contains r r = true.
Proof. unfold contains. by rewrite !isBeforeOrEqual_refl. Qed.

Lemma contains_trans a b c :
  contains a b = true → contains b c = true → contains a c = true.
Proof.
  unfold contains. rewrite !andb_true_iff.
  intros [H1 H2] [H3 H4]. split; eapply isBeforeOrEqual_trans; eauto.
Qed.

Lemma contains_union_l r o : contains (union r o) r = true.
Proof.
  unfold contains, union; simpl. by rewrite posMin_r, posMax_r.
Qed.

Lemma contains_union_r r o : contains (union r o) o = true.
Proof.
  unfold contains, union; simpl. by rewrite posMin_l, posMax_l.
Qed.

(** ** The first loop: what only grows, what stays *)

Ltac unfold_scan :=
  unfold recordLabel, recordVariable, recordDirective, allocInto, alloc,
    withFile, withLastLabel, pushBeforeRts, pushDefined, pushReferred,
    pushVariable, pushLabel, pushMacro, pushDcLabel, pushIncludedFile,
    pushSubroutine, setIncludeDir in *.

Ltac prefix_goal :=
  simpl;
  first [ reflexivity | done | by apply prefix_app_r
        | by apply prefix_app_r, prefix_app_r ].

Global Instance grows_preorder : PreOrder grows.
Proof.
  split.
  - intros st. by split.
  - intros a b c [] []. split; etrans; eassumption.
Qed.

Global Instance sameCore_preorder : PreOrder sameCore.
Proof.
  split.
  - intros st. by split.
  - intros a b c [] []. split; first [congruence | etrans; eassumption].
Qed.

Lemma allocInto_defined_sameCore s r v st :
  sameCore st (fst (allocInto pushDefined s r v st)).
Proof. unfold_scan. split; prefix_goal. Qed.

Lemma allocInto_referred_sameCore s r v st :
  sameCore st (fst (allocInto pushReferred s r v st)).
Proof. unfold_scan. split; prefix_goal. Qed.

Lemma allocInto_defined_grows s r v st :
  grows st (fst (allocInto pushDefined s r v st)).
Proof. unfold_scan. split; prefix_goal. Qed.

Lemma allocInto_referred_grows s r v st :
  grows st (fst (allocInto pushReferred s r v st)).
Proof. unfold_scan. split; prefix_goal. Qed.

(** The inner loop over the symbols of the data field. *)
Lemma referred_loop (R : relation Scan) `{!PreOrder R} :
  (∀ s r v st, R st (fst (allocInto pushReferred s r v st))) →
  ∀ results st,
    R st (foldl (λ acc res,
                   match res with
                   | (Some symbol, Some range) =>
                       fst (allocInto pushReferred symbol range None acc)
                   | _ => acc
                   end) st results).
Proof.
  intros HR results. induction results as [|[[s|] [r|]] results IH];
    intros st; simpl; try done.
  etrans; [apply HR | apply IH].
Qed.

Lemma recordSymbols_sameCore l st : sameCore st (recordSymbols l st).
Proof.
  unfold recordSymbols.
  destruct (symbolFromLabelOrVariable l) as [[s|] [r|]];
    try apply allocInto_defined_sameCore;
    (destruct (Str.nonEmpty (mnemonic l));
     [ etrans; [ apply (referred_loop sameCore), allocInto_referred_sameCore
               | apply allocInto_referred_sameCore ]
     | apply (referred_loop sameCore), allocInto_referred_sameCore ]).
Qed.

Lemma recordSymbols_grows l st : grows st (recordSymbols l st).
Proof.
  unfold recordSymbols.
  destruct (symbolFromLabelOrVariable l) as [[s|] [r|]];
    try apply allocInto_defined_grows;
    (destruct (Str.nonEmpty (mnemonic l));
     [ etrans; [ apply (referred_loop grows), allocInto_referred_grows
               | apply allocInto_referred_grows ]
     | apply (referred_loop grows), allocInto_referred_grows ]).
Qed.

Lemma recordVariable_sameCore l st : sameCore st (recordVariable l st).
Proof. unfold_scan. destruct (Str.nonEmpty _); split; prefix_goal. Qed.

Lemma recordVariable_grows l st : grows st (recordVariable l st).
Proof. unfold_scan. destruct (Str.nonEmpty _); split; prefix_goal. Qed.

Lemma recordLabel_grows i l st : grows st (recordLabel i l st).
Proof.
  unfold_scan.
  repeat (match goal with |- context [if ?b then _ else _] => destruct b end);
    split; prefix_goal.
Qed.

Lemma recordDirective_grows i l st : grows st (recordDirective i l st).
Proof.
  unfold_scan.
  repeat (match goal with
          | |- context [if ?b then _ else _] => destruct b
          | |- context [match lastLabel ?s with _ => _ end] =>
              destruct (lastLabel s)
          end);
    split; prefix_goal.
Qed.

Lemma scanLine_grows st l : grows st (scanLine st l).
Proof.
  unfold scanLine.
  etrans; [apply recordSymbols_grows|].
  etrans; [apply recordLabel_grows|].
  etrans; [apply recordVariable_grows|].
  apply recordDirective_grows.
Qed.

Lemma scan_app st a b : scan st (a ++ b) = scan (scan st a) b.
Proof. apply foldl_app. Qed.

Lemma scan_snoc st a l : scan st (a ++ [l]) = scanLine (scan st a) l.
Proof. apply foldl_snoc. Qed.

Lemma scan_cons st a l : scan st (l :: a) = scan (scanLine st l) a.
Proof. done. Qed.

Lemma scan_grows doc st : grows st (scan st doc).
Proof.
  revert st. induction doc as [|l doc IH]; intros st; [done|].
  rewrite scan_cons. etrans; [apply scanLine_grows | apply IH].
Qed.

(** ** The first loop: the effect of one line, field by field *)

Ltac split_ifs :=
  repeat (match goal with
          | |- context [if ?b then _ else _] => destruct b eqn:?
          | |- context [match lastLabel ?s with _ => _ end] =>
              destruct (lastLabel s) eqn:?
          end).

Lemma recordDirective_keeps i l st :
  labels (this (recordDirective i l st)) = labels (this st)
  ∧ macros (this (recordDirective i l st)) = macros (this st)
  ∧ lastLabel (recordDirective i l st) = lastLabel st.
Proof. unfold_scan. split_ifs; done. Qed.

Lemma recordLabel_keeps i l st :
  subroutines (this (recordLabel i l st)) = subroutines (this st)
  ∧ dcLabel (this (recordLabel i l st)) = dcLabel (this st)
  ∧ includeDir (this (recordLabel i l st)) = includeDir (this st)
  ∧ includedFiles (this (recordLabel i l st)) = includedFiles (this st)
  ∧ labelsBeforeRts (recordLabel i l st) = labelsBeforeRts st.
Proof. unfold_scan. split_ifs; done. Qed.

Lemma recordLabel_labels i l st :
  labels (this (recordLabel i l st)) =
  labels (this st) ++
    (if Str.nonEmpty (label l) && negb (isMacro i)
     then [length (heap st)] else []).
Proof.
  unfold_scan. destruct (Str.nonEmpty (label l)), (isMacro i); simpl;
    split_ifs; simpl; by rewrite ?app_nil_r.
Qed.

Lemma recordLabel_macros i l st :
  macros (this (recordLabel i l st)) =
  macros (this st) ++ (if isMacro i then [length (heap st)] else []).
Proof.
  unfold_scan. destruct (Str.nonEmpty (label l)), (isMacro i); simpl;
    split_ifs; simpl; by rewrite ?app_nil_r.
Qed.

Lemma recordLabel_lastLabel i l st :
  lastLabel (recordLabel i l st) =
  if Str.nonEmpty (label l) && negb (isMacro i) && negb (isLocalLine l)
  then Some (length (heap st)) else lastLabel st.
Proof.
  unfold_scan. unfold isLocalLine, cleanLabel.
  destruct (Str.nonEmpty (label l)), (isMacro i); simpl; try done.
  by destruct (Str.startsWith _ _).
Qed.

Lemma recordLabel_heap i l st :
  heap (recordLabel i l st) =
  heap st ++
    (if Str.nonEmpty (label l)
     then [newSymbol (labelText st l) (uri (this st)) (labelRange l) None]
     else if isMacro i
          then [newSymbol (data l) (uri (this st)) (dataRange l) None]
          else []).
Proof.
  unfold_scan. unfold labelText, isLocalLine, cleanLabel.
  destruct (Str.nonEmpty (label l)), (isMacro i); simpl;
    split_ifs; simpl; by rewrite ?app_nil_r.
Qed.

Lemma scanLine_labels st l :
  labels (this (scanLine st l)) =
  labels (this st) ++ (if isLabelLine l then [labelRef st l] else []).
Proof.
  unfold scanLine.
  destruct (recordDirective_keeps (Str.toLowerCase (instruction l)) l
    (recordVariable l (recordLabel (Str.toLowerCase (instruction l)) l
       (recordSymbols l st)))) as (-> & _ & _).
  rewrite (sc_labels _ _ (recordVariable_sameCore _ _)).
  rewrite recordLabel_labels.
  by rewrite (sc_labels _ _ (recordSymbols_sameCore _ _)).
Qed.

Lemma scanLine_macros st l :
  macros (this (scanLine st l)) =
  macros (this st) ++ (if isMacro (instruct l) then [labelRef st l] else []).
Proof.
  unfold scanLine.
  destruct (recordDirective_keeps (Str.toLowerCase (instruction l)) l
    (recordVariable l (recordLabel (Str.toLowerCase (instruction l)) l
       (recordSymbols l st)))) as (_ & -> & _).
  rewrite (sc_macros _ _ (recordVariable_sameCore _ _)).
  rewrite recordLabel_macros.
  by rewrite (sc_macros _ _ (recordSymbols_sameCore _ _)).
Qed.

Lemma scanLine_lastLabel st l :
  lastLabel (scanLine st l) =
  if isGlobalLabelLine l then Some (labelRef st l) else lastLabel st.
Proof.
  unfold scanLine.
  destruct (recordDirective_keeps (Str.toLowerCase (instruction l)) l
    (recordVariable l (recordLabel (Str.toLowerCase (instruction l)) l
       (recordSymbols l st)))) as (_ & _ & ->).
  rewrite (sc_lastLabel _ _ (recordVariable_sameCore _ _)).
  rewrite recordLabel_lastLabel.
  by rewrite (sc_lastLabel _ _ (recordSymbols_sameCore _ _)).
Qed.

Lemma scanLine_labelSymbol st l :
  Str.nonEmpty (label l) || isMacro (instruct l) = true →
  heap (scanLine st l) !! labelRef st l = Some (labelSymbol st l).
Proof.
  intros H. unfold scanLine.
  set (st2 := recordLabel _ l _).
  eapply prefix_lookup_Some;
    [| etrans; [apply (g_heap _ _ (recordVariable_grows l st2))
               | apply (g_heap _ _ (recordDirective_grows _ l _))]].
  subst st2.
  rewrite recordLabel_heap. unfold labelRef, labelSymbol.
  rewrite (sc_uri _ _ (recordSymbols_sameCore _ _)).
  fold (instruct l). destruct (Str.nonEmpty (label l)); simpl in *.
  - by rewrite lookup_app_r, Nat.sub_diag.
  - rewrite H. by rewrite lookup_app_r, Nat.sub_diag.
Qed.

Lemma recordDirective_dcLabel i l st :
  dcLabel (this (recordDirective i l st)) =
  dcLabel (this st) ++
    (if negb (Str.includes i "bsr") && isData i
     then option_list (lastLabel st) else []).
Proof.
  unfold_scan.
  destruct (Str.includes i "bsr"), (isData i); simpl;
    split_ifs; simpl; by rewrite ?app_nil_r.
Qed.

Lemma recordDirective_before i l st :
  labelsBeforeRts (recordDirective i l st) =
  labelsBeforeRts st ++
    (if negb (Str.includes i "bsr") && negb (isData i) && Str.includes i "rts"
     then option_list (lastLabel st) else []).
Proof.
  unfold_scan.
  destruct (Str.includes i "bsr"), (isData i), (Str.includes i "rts"); simpl;
    split_ifs; simpl; by rewrite ?app_nil_r.
Qed.

Lemma recordDirective_subroutines i l st :
  subroutines (this (recordDirective i l st)) =
  subroutines (this st) ++ (if Str.includes i "bsr" then [data l] else []).
Proof.
  unfold_scan. destruct (Str.includes i "bsr"); simpl;
    split_ifs; simpl; by rewrite ?app_nil_r.
Qed.

Lemma recordDirective_includeDir i l st :
  includeDir (this (recordDirective i l st)) =
  if bool_decide (i = "incdir")
  then Str.removeAll quote (data l) else includeDir (this st).
Proof.
  case_bool_decide as Hi.
  - rewrite Hi. done.
  - unfold_scan. rewrite (bool_decide_eq_false_2 _ Hi).
    split_ifs; done.
Qed.


Section ScanLine.
Context (st : Scan) (l : ASMLine).

Let st1 := recordSymbols l st.
Let st2 := recordLabel (instruct l) l st1.
Let st3 := recordVariable l st2.

Local Lemma scanLine_unfold :
  scanLine st l = recordDirective (instruct l) l st3.
Proof. done. Qed.

Local Lemma st3_lastLabel : lastLabel st3 = lastLabel (scanLine st l).
Proof.
  rewrite scanLine_unfold.
  by destruct (recordDirective_keeps (instruct l) l st3) as (_ & _ & ->).
Qed.

Lemma scanLine_dcLabel :
  dcLabel (this (scanLine st l)) =
  dcLabel (this st) ++
    (if isDataLine l then option_list (lastLabel (scanLine st l)) else []).
Proof.
  rewrite <- st3_lastLabel, scanLine_unfold, recordDirective_dcLabel.
  unfold st3. rewrite (sc_dcLabel _ _ (recordVariable_sameCore l st2)).
  unfold st2. destruct (recordLabel_keeps (instruct l) l st1) as (_ & -> & _).
  unfold st1. by rewrite (sc_dcLabel _ _ (recordSymbols_sameCore l st)).
Qed.

Lemma scanLine_before :
  labelsBeforeRts (scanLine st l) =
  labelsBeforeRts st ++
    (if isReturnLine l then option_list (lastLabel (scanLine st l)) else []).
Proof.
  rewrite <- st3_lastLabel, scanLine_unfold, recordDirective_before.
  unfold st3. rewrite (sc_before _ _ (recordVariable_sameCore l st2)).
  unfold st2. destruct (recordLabel_keeps (instruct l) l st1) as (_ & _ & _ & _ & ->).
  unfold st1. by rewrite (sc_before _ _ (recordSymbols_sameCore l st)).
Qed.

Lemma scanLine_subroutines :
  subroutines (this (scanLine st l)) =
  subroutines (this st) ++ (if isCall l then [data l] else []).
Proof.
  rewrite scanLine_unfold, recordDirective_subroutines.
  unfold st3. rewrite (sc_subroutines _ _ (recordVariable_sameCore l st2)).
  unfold st2. destruct (recordLabel_keeps (instruct l) l st1) as (-> & _).
  unfold st1. by rewrite (sc_subroutines _ _ (recordSymbols_sameCore l st)).
Qed.

Lemma scanLine_includeDir :
  includeDir (this (scanLine st l)) =
  if bool_decide (instruct l = "incdir")
  then Str.removeAll quote (data l) else includeDir (this st).
Proof.
  rewrite scanLine_unfold, recordDirective_includeDir.
  unfold st3. rewrite (sc_includeDir _ _ (recordVariable_sameCore l st2)).
  unfold st2. destruct (recordLabel_keeps (instruct l) l st1) as (_ & _ & -> & _).
  unfold st1. by rewrite (sc_includeDir _ _ (recordSymbols_sameCore l st)).
Qed.


End ScanLine.

(** ** The first loop keeps its references allocated and distinct *)

Lemma scanStart_wf h f : scan_wf (scanStart h f).
Proof.
  split; simpl; try done; try constructor.
  all: intros r Hr; by apply elem_of_nil in Hr.
Qed.

Lemma labelRef_fresh st l : length (heap st) ≤ labelRef st l.
Proof.
  unfold labelRef.
  apply prefix_length, (sc_heap _ _ (recordSymbols_sameCore l st)).
Qed.

Lemma labelRef_allocated st l :
  Str.nonEmpty (label l) || isMacro (instruct l) = true →
  labelRef st l < length (heap (scanLine st l)).
Proof.
  intros H. eapply lookup_lt_Some, scanLine_labelSymbol, H.
Qed.

Lemma scanLine_wf st l : scan_wf st → scan_wf (scanLine st l).
Proof.
  intros [Hb Hn Hl Hr].
  pose proof (prefix_length _ _ (g_heap _ _ (scanLine_grows st l))) as Hlen.
  split.
  - rewrite scanLine_labels. apply Forall_app. split.
    + eapply Forall_impl; [exact Hb|]. simpl. lia.
    + unfold isLabelLine. destruct (Str.nonEmpty (label l)) eqn:E; simpl;
        [|constructor].
      destruct (isMacro (instruct l)) eqn:E'; simpl; constructor;
        [|constructor].
      apply labelRef_allocated. by rewrite E.
  - rewrite scanLine_labels. apply NoDup_app. split_and!; [done| |].
    + intros x Hx. destruct (isLabelLine l); [|apply not_elem_of_nil].
      rewrite list_elem_of_singleton. intros ->.
      rewrite Forall_forall in Hb. apply Hb in Hx.
      pose proof (labelRef_fresh st l). lia.
    + destruct (isLabelLine l); [apply NoDup_singleton | constructor].
  - intros r. rewrite scanLine_lastLabel, scanLine_labels.
    unfold isGlobalLabelLine. destruct (isLabelLine l); simpl.
    + destruct (isLocalLine l); simpl.
      * intros H. apply elem_of_app. left. by apply Hl.
      * intros [= <-]. apply elem_of_app. right. by apply list_elem_of_singleton.
    + rewrite app_nil_r. apply Hl.
  - intros r. rewrite scanLine_before, scanLine_lastLabel, scanLine_labels.
    rewrite elem_of_app. intros [H|H].
    + apply elem_of_app. left. by apply Hr.
    + destruct (isReturnLine l); [|by apply elem_of_nil in H].
      unfold isGlobalLabelLine in H. destruct (isLabelLine l); simpl in *.
      * destruct (isLocalLine l); simpl in *.
        -- destruct (lastLabel st) as [r'|] eqn:E; simpl in H;
             [|by apply elem_of_nil in H].
           apply list_elem_of_singleton in H as ->.
           apply elem_of_app. left. by apply Hl.
        -- apply list_elem_of_singleton in H as ->.
           apply elem_of_app. right. by apply list_elem_of_singleton.
      * rewrite app_nil_r. destruct (lastLabel st) as [r'|] eqn:E;
          simpl in H; [|by apply elem_of_nil in H].
        apply list_elem_of_singleton in H as ->. by apply Hl.
Qed.

Lemma scan_wf_run doc st : scan_wf st → scan_wf (scan st doc).
Proof.
  revert st. induction doc as [|l doc IH]; intros st H; [done|].
  rewrite scan_cons. by apply IH, scanLine_wf.
Qed.

(** ** [lastLabel] is the object of the nearest global label line *)

Lemma nearestGlobal_snoc doc l :
  nearestGlobal (doc ++ [l]) =
  if isGlobalLabelLine l then Some l else nearestGlobal doc.
Proof.
  unfold nearestGlobal. rewrite filter_app.
  destruct (isGlobalLabelLine l) eqn:E.
  - rewrite filter_cons_True by done. rewrite filter_nil.
    by rewrite last_snoc.
  - rewrite filter_cons_False by (by rewrite E). rewrite filter_nil.
    by rewrite app_nil_r.
Qed.

Lemma nearestGlobal_is_global doc g :
  nearestGlobal doc = Some g → isGlobalLabelLine g = true ∧ g ∈ doc.
Proof.
  unfold nearestGlobal. intros H. apply last_Some_elem_of in H.
  apply list_elem_of_filter in H. tauto.
Qed.

Lemma scan_uri h f doc : uri (this (scan (scanStart h f) doc)) = uri f.
Proof. by rewrite (g_uri _ _ (scan_grows doc (scanStart h f))). Qed.

Lemma lastLabel_nearest h f doc :
  match nearestGlobal doc with
  | Some g =>
      ∃ r, lastLabel (scan (scanStart h f) doc) = Some r
           ∧ heap (scan (scanStart h f) doc) !! r =
               Some (newSymbol (cleanLabel g) (uri f) (labelRange g) None)
  | None => lastLabel (scan (scanStart h f) doc) = None
  end.
Proof.
  induction doc as [|l doc IH] using rev_ind; [done|].
  rewrite nearestGlobal_snoc, scan_snoc, scanLine_lastLabel.
  destruct (isGlobalLabelLine l) eqn:E.
  - exists (labelRef (scan (scanStart h f) doc) l). split; [done|].
    unfold isGlobalLabelLine, isLabelLine in E.
    apply andb_true_iff in E as [E1 E2]. apply andb_true_iff in E1 as [E1 _].
    rewrite scanLine_labelSymbol by (by rewrite E1).
    unfold labelSymbol, labelText. rewrite E1, scan_uri.
    by destruct (isLocalLine l).
  - destruct (nearestGlobal doc) as [g|]; [|done].
    destruct IH as (r & Hr & Hh). exists r. split; [done|].
    eapply prefix_lookup_Some; [exact Hh|].
    apply (g_heap _ _ (scanLine_grows _ l)).
Qed.

Lemma lastLabelText_recordSymbols l st :
  (∀ r, lastLabel st = Some r → is_Some (heap st !! r)) →
  lastLabelText (recordSymbols l st) = lastLabelText st.
Proof.
  intros H. unfold lastLabelText, labelOf.
  rewrite (sc_lastLabel _ _ (recordSymbols_sameCore l st)).
  destruct (lastLabel st) as [r|]; [|done].
  destruct (H r eq_refl) as [s Hs].
  by rewrite (prefix_lookup_Some _ _ _ _ Hs
                (sc_heap _ _ (recordSymbols_sameCore l st))), Hs.
Qed.

Lemma lastLabelText_globalPrefix h f doc :
  lastLabelText (scan (scanStart h f) doc) = globalPrefix doc.
Proof.
  unfold lastLabelText, globalPrefix, labelOf.
  pose proof (lastLabel_nearest h f doc) as H.
  destruct (nearestGlobal doc) as [g|].
  - destruct H as (r & -> & ->). done.
  - by rewrite H.
Qed.

Lemma lastLabel_allocated h f doc r :
  lastLabel (scan (scanStart h f) doc) = Some r →
  is_Some (heap (scan (scanStart h f) doc) !! r).
Proof.
  intros Hr. pose proof (lastLabel_nearest h f doc) as H.
  destruct (nearestGlobal doc) as [g|]; [|congruence].
  destruct H as (r' & Hr' & Hh). rewrite Hr in Hr'. injection Hr' as ->.
  eauto.
Qed.

(** The object allocated for a labelled line that follows the lines [pre]. *)
Lemma labelSymbol_stored h f pre l :
  Str.nonEmpty (label l) = true →
  labelSymbol (scan (scanStart h f) pre) l =
  newSymbol (storedLabel pre l) (uri f) (labelRange l) None.
Proof.
  intros E. unfold labelSymbol, labelText, storedLabel.
  rewrite E, scan_uri.
  rewrite lastLabelText_recordSymbols by apply lastLabel_allocated.
  by rewrite lastLabelText_globalPrefix.
Qed.

(** ** The second loop never touches a label text or the store's size *)

Lemma lookup_alter_field {B} (proj : Symbol → B) f (h : Store) i j :
  (∀ s, proj (f s) = proj s) →
  proj <$> alter f i h !! j = proj <$> h !! j.
Proof.
  intros Hf. destruct (decide (i = j)) as [->|Hne].
  - rewrite list_lookup_alter_eq. destruct (h !! j); simpl; [|done].
    by rewrite Hf.
  - by rewrite list_lookup_alter_ne.
Qed.

Lemma trackLabel_getLabel subs before t l r :
  getLabel <$> objects (trackLabel subs before t l) !! r =
  getLabel <$> objects t !! r.
Proof.
  unfold trackLabel.
  destruct (bool_decide (labelOf (objects t) l ∈ subs)),
    (bool_decide (l ∈ before)), (inSub t), (lastParent t); simpl; try done;
    by rewrite !lookup_alter_field.
Qed.

Lemma trackLabel_length subs before t l :
  length (objects (trackLabel subs before t l)) = length (objects t).
Proof.
  unfold trackLabel.
  destruct (bool_decide (labelOf (objects t) l ∈ subs)),
    (bool_decide (l ∈ before)), (inSub t), (lastParent t); simpl; try done;
    by rewrite !length_alter.
Qed.

Lemma track_getLabel subs before ls t r :
  getLabel <$> objects (track subs before t ls) !! r =
  getLabel <$> objects t !! r.
Proof.
  revert t. unfold track. induction ls as [|l ls IH]; intros t; [done|].
  simpl. by rewrite IH, trackLabel_getLabel.
Qed.

Lemma track_length subs before ls t :
  length (objects (track subs before t ls)) = length (objects t).
Proof.
  revert t. unfold track. induction ls as [|l ls IH]; intros t; [done|].
  simpl. by rewrite IH, trackLabel_length.
Qed.

Lemma labelOf_fmap (h h' : Store) r :
  getLabel <$> h' !! r = getLabel <$> h !! r → labelOf h' r = labelOf h r.
Proof.
  unfold labelOf. destruct (h' !! r), (h !! r); simpl; congruence.
Qed.

Lemma track_labelOf subs before ls t r :
  labelOf (objects (track subs before t ls)) r = labelOf (objects t) r.
Proof. apply labelOf_fmap, track_getLabel. Qed.

(** The label text of an object in the store [readDocument] returns is the
    one it was allocated with. *)
Lemma readDocument_labelOf h f doc r s :
  heap (scan (scanStart h f) doc) !! r = Some s →
  labelOf (readDocument h f doc).1 r = getLabel s.
Proof.
  intros H. unfold readDocument, inferBoundaries. simpl.
  rewrite track_labelOf. simpl. unfold labelOf. by rewrite H.
Qed.

Lemma scan_heap_mono h f pre post r s :
  heap (scan (scanStart h f) pre) !! r = Some s →
  heap (scan (scanStart h f) (pre ++ post)) !! r = Some s.
Proof.
  intros H. rewrite scan_app.
  eapply prefix_lookup_Some; [exact H|]. apply (g_heap _ _ (scan_grows _ _)).
Qed.

(** ** Labels: what is stored, and where *)

Lemma cons_snoc_app {A} (pre : list A) l post :
  pre ++ l :: post = (pre ++ [l]) ++ post.
Proof. by rewrite <- app_assoc. Qed.

Lemma isLabelLine_labelled l :
  isLabelLine l = true →
  Str.nonEmpty (label l) = true ∧ isMacro (instruct l) = false.
Proof.
  unfold isLabelLine. rewrite andb_true_iff, negb_true_iff. done.
Qed.

(** A label line allocates one object, pushes it on [labels], and the object
    survives to the end of [readDocument] with its text. *)
Lemma label_line_object h f pre l post :
  isLabelLine l = true →
  ∃ r, labelObject h f pre l r
       ∧ heap (scan (scanStart h f) (pre ++ [l])) !! r =
           Some (newSymbol (storedLabel pre l) (uri f) (labelRange l) None)
       ∧ r ∈ labels (readDocument h f (pre ++ l :: post)).2
       ∧ labelOf (readDocument h f (pre ++ l :: post)).1 r = storedLabel pre l.
Proof.
  intros Hl. destruct (isLabelLine_labelled l Hl) as [Hn Hm].
  exists (labelRef (scan (scanStart h f) pre) l).
  assert (heap (scan (scanStart h f) (pre ++ [l]))
            !! labelRef (scan (scanStart h f) pre) l =
          Some (newSymbol (storedLabel pre l) (uri f) (labelRange l) None))
    as Hheap.
  { rewrite scan_snoc, scanLine_labelSymbol by (by rewrite Hn).
    by rewrite labelSymbol_stored. }
  assert (labelObject h f pre l (labelRef (scan (scanStart h f) pre) l))
    as Hobj.
  { unfold labelObject. by rewrite scan_snoc, scanLine_labels, Hl. }
  split_and!; try done.
  - unfold readDocument; simpl. rewrite cons_snoc_app, scan_app.
    eapply elem_of_prefix; [|apply (g_labels _ _ (scan_grows _ _))].
    rewrite Hobj. apply elem_of_app. right. by apply list_elem_of_singleton.
  - rewrite cons_snoc_app.
    by rewrite (readDocument_labelOf _ _ _ _ _ (scan_heap_mono _ _ _ _ _ _ Hheap)).
Qed.

(** C1, as amended: for a local label line the object pushed on [labels]
    carries the text of the nearest preceding global label (or [undefined]
    when there is none) followed by the local text; the composition is done
    when the line is read. *)
Theorem local_label_stored_with_prefix h f pre l post :
  isLabelLine l = true → isLocalLine l = true →
  ∃ r, labelObject h f pre l r
       ∧ r ∈ labels (readDocument h f (pre ++ l :: post)).2
       ∧ labelOf (readDocument h f (pre ++ l :: post)).1 r =
           globalPrefix pre +:+ cleanLabel l.
Proof.
  intros Hl Hloc.
  destruct (label_line_object h f pre l post Hl) as (r & Ho & _ & Hin & Ht).
  exists r. split_and!; try done.
  rewrite Ht. unfold storedLabel. by rewrite Hloc.
Qed.

Lemma local_label_stored_with_prefix_witness :
  ∃ r, labelObject [] (newFile "a.s") [fooLine] barLine r
       ∧ r ∈ labels (readDocument [] (newFile "a.s")
                       ([fooLine] ++ barLine :: [dcLine])).2
       ∧ labelOf (readDocument [] (newFile "a.s")
                    ([fooLine] ++ barLine :: [dcLine])).1 r = "FOO.bar".
Proof.
  apply (local_label_stored_with_prefix [] (newFile "a.s") [fooLine] barLine
           [dcLine]); reflexivity.
Defined.

(** C1, as stated, fails on [FOO:] followed by [.bar]: the stored text is
    [FOO.bar]. *)
Lemma local_label_literal_text_refuted :
  ¬ storesLiteralLocalText [] (newFile "a.s") [fooLine] barLine [].
Proof.
  intros H. destruct (H eq_refl eq_refl) as (r & Ho & Ht).
  vm_compute in Ho. injection Ho as <-. vm_compute in Ht. discriminate.
Qed.

(** C9: a local label met before any global label is still pushed on
    [labels], under the text [undefined] followed by the local text. *)
Theorem local_label_without_global h f pre l post :
  isLabelLine l = true → isLocalLine l = true → nearestGlobal pre = None →
  ∃ r, labelObject h f pre l r
       ∧ r ∈ labels (readDocument h f (pre ++ l :: post)).2
       ∧ labelOf (readDocument h f (pre ++ l :: post)).1 r =
           "undefined" +:+ cleanLabel l.
Proof.
  intros Hl Hloc Hnone.
  destruct (label_line_object h f pre l post Hl) as (r & Ho & _ & Hin & Ht).
  exists r. split_and!; try done.
  rewrite Ht. unfold storedLabel, globalPrefix. by rewrite Hloc, Hnone.
Qed.

Lemma local_label_without_global_witness :
  ∃ r, labelObject [] (newFile "a.s") [dcLine] barLine r
       ∧ r ∈ labels (readDocument [] (newFile "a.s")
                       ([dcLine] ++ barLine :: [fooLine])).2
       ∧ labelOf (readDocument [] (newFile "a.s")
                    ([dcLine] ++ barLine :: [fooLine])).1 r
         = "undefined.bar".
Proof.
  apply (local_label_without_global [] (newFile "a.s") [dcLine] barLine
           [fooLine]); reflexivity.
Defined.

(** ** Macros, data owners and include directives *)

(** C8: a labelled macro header is pushed on [macros] and leaves [labels]
    and [lastLabel] alone; any other labelled line is pushed on [labels]
    and becomes [lastLabel] unless it is local; an unlabelled macro header
    pushes the data field on [macros]. *)
Theorem label_classification h f pre l :
  let st := scan (scanStart h f) pre in
  let st' := scan (scanStart h f) (pre ++ [l]) in
  (Str.nonEmpty (label l) = true → isMacro (instruct l) = true →
   ∃ r, macros (this st') = macros (this st) ++ [r]
        ∧ labels (this st') = labels (this st)
        ∧ lastLabel st' = lastLabel st
        ∧ heap st' !! r =
            Some (newSymbol (storedLabel pre l) (uri f) (labelRange l) None))
  ∧ (Str.nonEmpty (label l) = true → isMacro (instruct l) = false →
     ∃ r, labels (this st') = labels (this st) ++ [r]
          ∧ macros (this st') = macros (this st)
          ∧ lastLabel st' = (if isLocalLine l then lastLabel st else Some r)
          ∧ heap st' !! r =
              Some (newSymbol (storedLabel pre l) (uri f) (labelRange l) None))
  ∧ (Str.nonEmpty (label l) = false → isMacro (instruct l) = true →
     ∃ r, macros (this st') = macros (this st) ++ [r]
          ∧ labels (this st') = labels (this st)
          ∧ lastLabel st' = lastLabel st
          ∧ heap st' !! r =
              Some (newSymbol (data l) (uri f) (dataRange l) None)).
Proof.
  intros st st'. subst st st'. rewrite scan_snoc.
  rewrite scanLine_labels, scanLine_macros, scanLine_lastLabel.
  unfold isGlobalLabelLine, isLabelLine.
  split_and!; intros Hn Hm; rewrite Hn, Hm; simpl;
    exists (labelRef (scan (scanStart h f) pre) l);
    rewrite ?app_nil_r, scanLine_labelSymbol by (by rewrite Hn, Hm);
    split_and!; try done.
  - by rewrite labelSymbol_stored.
  - by destruct (isLocalLine l).
  - by rewrite labelSymbol_stored.
  - unfold labelSymbol. by rewrite Hn, scan_uri.
Qed.

Lemma label_classification_witness :
  (∃ r, macros (this (scan (scanStart [] (newFile "a.s"))
                        ([fooLine] ++ [macroLine]))) =
          macros (this (scan (scanStart [] (newFile "a.s")) [fooLine])) ++ [r]
        ∧ labels (this (scan (scanStart [] (newFile "a.s"))
                          ([fooLine] ++ [macroLine]))) =
            labels (this (scan (scanStart [] (newFile "a.s")) [fooLine]))
        ∧ lastLabel (scan (scanStart [] (newFile "a.s"))
                       ([fooLine] ++ [macroLine])) =
            lastLabel (scan (scanStart [] (newFile "a.s")) [fooLine])
        ∧ heap (scan (scanStart [] (newFile "a.s"))
                  ([fooLine] ++ [macroLine])) !! r =
            Some (newSymbol "mymac" "a.s" (labelRange macroLine) None))
  ∧ (∃ r, labels (this (scan (scanStart [] (newFile "a.s"))
                          ([fooLine] ++ [barLine]))) =
            labels (this (scan (scanStart [] (newFile "a.s")) [fooLine]))
              ++ [r]
          ∧ macros (this (scan (scanStart [] (newFile "a.s"))
                            ([fooLine] ++ [barLine]))) =
              macros (this (scan (scanStart [] (newFile "a.s")) [fooLine]))
          ∧ lastLabel (scan (scanStart [] (newFile "a.s"))
                         ([fooLine] ++ [barLine])) =
              lastLabel (scan (scanStart [] (newFile "a.s")) [fooLine])
          ∧ heap (scan (scanStart [] (newFile "a.s"))
                    ([fooLine] ++ [barLine])) !! r =
              Some (newSymbol "FOO.bar" "a.s" (labelRange barLine) None))
  ∧ (∃ r, macros (this (scan (scanStart [] (newFile "a.s"))
                          ([fooLine] ++ [macroDataLine]))) =
            macros (this (scan (scanStart [] (newFile "a.s")) [fooLine]))
              ++ [r]
          ∧ labels (this (scan (scanStart [] (newFile "a.s"))
                            ([fooLine] ++ [macroDataLine]))) =
              labels (this (scan (scanStart [] (newFile "a.s")) [fooLine]))
          ∧ lastLabel (scan (scanStart [] (newFile "a.s"))
                         ([fooLine] ++ [macroDataLine])) =
              lastLabel (scan (scanStart [] (newFile "a.s")) [fooLine])
          ∧ heap (scan (scanStart [] (newFile "a.s"))
                    ([fooLine] ++ [macroDataLine])) !! r =
              Some (newSymbol "mymac" "a.s" (dataRange macroDataLine) None)).
Proof.
  split_and!.
  - apply (proj1 (label_classification [] (newFile "a.s") [fooLine]
                    macroLine)); reflexivity.
  - apply (proj1 (proj2 (label_classification [] (newFile "a.s") [fooLine]
                           barLine))); reflexivity.
  - apply (proj2 (proj2 (label_classification [] (newFile "a.s") [fooLine]
                           macroDataLine))); reflexivity.
Defined.

(** C3, as amended: a data, storage or include-binary directive (one whose
    instruction does not also contain [bsr]) records the object of the
    nearest global label line at or before it, when there is one, and
    nothing otherwise; local labels never become owners. *)
Theorem data_owner_is_nearest_global h f pre l post :
  isDataLine l = true →
  match nearestGlobal (pre ++ [l]) with
  | Some g =>
      ∃ r, dcLabel (this (scan (scanStart h f) (pre ++ [l]))) =
             dcLabel (this (scan (scanStart h f) pre)) ++ [r]
           ∧ heap (scan (scanStart h f) (pre ++ [l])) !! r =
               Some (newSymbol (cleanLabel g) (uri f) (labelRange g) None)
           ∧ r ∈ dcLabel (readDocument h f (pre ++ l :: post)).2
           ∧ labelOf (readDocument h f (pre ++ l :: post)).1 r = cleanLabel g
  | None =>
      dcLabel (this (scan (scanStart h f) (pre ++ [l]))) =
      dcLabel (this (scan (scanStart h f) pre))
  end.
Proof.
  intros Hd. pose proof (lastLabel_nearest h f (pre ++ [l])) as Hn.
  assert (dcLabel (this (scan (scanStart h f) (pre ++ [l]))) =
          dcLabel (this (scan (scanStart h f) pre)) ++
            option_list (lastLabel (scan (scanStart h f) (pre ++ [l]))))
    as Hdc.
  { rewrite scan_snoc, scanLine_dcLabel. by rewrite Hd. }
  destruct (nearestGlobal (pre ++ [l])) as [g|].
  - destruct Hn as (r & Hr & Hh). exists r. rewrite Hr in Hdc.
    split_and!; try done.
    + unfold readDocument; simpl. rewrite cons_snoc_app, scan_app.
      eapply elem_of_prefix; [|apply (g_dcLabel _ _ (scan_grows _ _))].
      rewrite Hdc. apply elem_of_app. right.
      by apply list_elem_of_singleton.
    + rewrite cons_snoc_app.
      by rewrite (readDocument_labelOf _ _ _ _ _
                    (scan_heap_mono _ _ _ _ _ _ Hh)).
  - rewrite Hn in Hdc. simpl in Hdc. by rewrite app_nil_r in Hdc.
Qed.

Lemma data_owner_is_nearest_global_witness :
  ∃ r, dcLabel (this (scan (scanStart [] (newFile "a.s"))
                        ([fooLine; barLine] ++ [dcLine]))) =
         dcLabel (this (scan (scanStart [] (newFile "a.s"))
                          [fooLine; barLine])) ++ [r]
       ∧ heap (scan (scanStart [] (newFile "a.s"))
                 ([fooLine; barLine] ++ [dcLine])) !! r =
           Some (newSymbol "FOO" "a.s" (labelRange fooLine) None)
       ∧ r ∈ dcLabel (readDocument [] (newFile "a.s")
                        ([fooLine; barLine] ++ dcLine :: [])).2
       ∧ labelOf (readDocument [] (newFile "a.s")
                    ([fooLine; barLine] ++ dcLine :: [])).1 r = "FOO".
Proof.
  apply (data_owner_is_nearest_global [] (newFile "a.s") [fooLine; barLine]
           dcLine []).
  reflexivity.
Defined.

(** C3, as stated, fails on [FOO:], [.bar], [dc.b 1]: the owner recorded is
    the object of [FOO], not that of the nearer label [.bar]. *)
Lemma data_owner_nearest_label_refuted :
  ¬ dataOwnerIsNearestLabel [] (newFile "a.s") [fooLine; barLine] dcLine.
Proof.
  intros H. destruct (H eq_refl barLine eq_refl) as (r & Hd & Hr).
  vm_compute in Hd. injection Hd as <-. vm_compute in Hr. discriminate.
Qed.





(** ** Subroutine boundaries *)

Lemma trackLabel_flags subs before t l :
  lastParent (trackLabel subs before t l) =
    (if bool_decide (labelOf (objects t) l ∈ subs)
     then Some l else lastParent t)
  ∧ inSub (trackLabel subs before t l) =
      (if bool_decide (l ∈ before) then false
       else if bool_decide (labelOf (objects t) l ∈ subs) then true
            else inSub t).
Proof.
  unfold trackLabel. destruct t as [h [|] [p|]]; simpl;
    destruct (bool_decide (labelOf h l ∈ subs)), (bool_decide (l ∈ before));
    done.
Qed.

(** The store after one label: only the assignment branch changes it. *)
Lemma trackLabel_objects subs before t l :
  objects (trackLabel subs before t l) =
  match bool_decide (labelOf (objects t) l ∈ subs), inSub t, lastParent t with
  | false, true, Some p =>
      let h1 := alter (setParent (labelOf (objects t) p)) l (objects t) in
      alter (setRange (union (rangeOf h1 p) (rangeOf h1 l))) p h1
  | _, _, _ => objects t
  end.
Proof.
  unfold trackLabel. destruct t as [h [|] [p|]]; simpl;
    destruct (bool_decide (labelOf h l ∈ subs)), (bool_decide (l ∈ before));
    done.
Qed.

Lemma rangeOf_fmap (h h' : Store) r :
  getRange <$> h' !! r = getRange <$> h !! r → rangeOf h' r = rangeOf h r.
Proof.
  unfold rangeOf. destruct (h' !! r), (h !! r); simpl; congruence.
Qed.

Lemma parentOf_fmap (h h' : Store) r :
  getParent <$> h' !! r = getParent <$> h !! r → parentOf h' r = parentOf h r.
Proof.
  unfold parentOf. destruct (h' !! r), (h !! r); simpl; congruence.
Qed.

Lemma rangeOf_setParent s i (h : Store) r :
  rangeOf (alter (setParent s) i h) r = rangeOf h r.
Proof. by apply rangeOf_fmap, lookup_alter_field. Qed.

Lemma parentOf_setRange R i (h : Store) r :
  parentOf (alter (setRange R) i h) r = parentOf h r.
Proof. by apply parentOf_fmap, lookup_alter_field. Qed.

Lemma labelOf_alter_setParent s i (h : Store) r :
  labelOf (alter (setParent s) i h) r = labelOf h r.
Proof. by apply labelOf_fmap, lookup_alter_field. Qed.

Lemma rangeOf_setRange_ne R i (h : Store) r :
  i ≠ r → rangeOf (alter (setRange R) i h) r = rangeOf h r.
Proof. intros H. unfold rangeOf. by rewrite list_lookup_alter_ne. Qed.

Lemma parentOf_setParent_ne s i (h : Store) r :
  i ≠ r → parentOf (alter (setParent s) i h) r = parentOf h r.
Proof. intros H. unfold parentOf. by rewrite list_lookup_alter_ne. Qed.

Lemma rangeOf_setRange_eq R (h : Store) r :
  r < length h → rangeOf (alter (setRange R) r h) r = R.
Proof.
  intros H. unfold rangeOf. rewrite list_lookup_alter_eq.
  destruct (lookup_lt_is_Some_2 h r H) as [s ->]. done.
Qed.

Lemma parentOf_setParent_eq s (h : Store) r :
  r < length h → parentOf (alter (setParent s) r h) r = s.
Proof.
  intros H. unfold parentOf. rewrite list_lookup_alter_eq.
  destruct (lookup_lt_is_Some_2 h r H) as [x ->]. done.
Qed.

Section Boundaries.
Context (subs : list string) (before : list ref).

Local Abbreviation step := (trackLabel subs before).
Local Abbreviation run := (track subs before).

Lemma run_snoc t ls l : run t (ls ++ [l]) = step (run t ls) l.
Proof. apply foldl_snoc. Qed.

Lemma run_app t a b : run t (a ++ b) = run (run t a) b.
Proof. apply foldl_app. Qed.

Lemma run_cons t l ls : run t (l :: ls) = run (step t l) ls.
Proof. done. Qed.

Lemma step_labelOf t l r : labelOf (objects (step t l)) r = labelOf (objects t) r.
Proof. apply labelOf_fmap, trackLabel_getLabel. Qed.

(** Inside the subroutine of [sub]: labels that are neither call targets nor
    recorded at a return line keep the tracking state. *)
Lemma run_inside sub mid t :
  inSub t = true → lastParent t = Some sub →
  (∀ x, x ∈ mid → (labelOf (objects t) x ∉ subs) ∧ (x ∉ before)) →
  inSub (run t mid) = true ∧ lastParent (run t mid) = Some sub.
Proof.
  revert t. induction mid as [|x mid IH]; intros t Hi Hp Hmid; [done|].
  rewrite run_cons.
  destruct (Hmid x (list_elem_of_here _ _)) as [Hs Hb].
  destruct (trackLabel_flags subs before t x) as [Hp' Hi'].
  rewrite bool_decide_eq_false_2 in Hp', Hi' by done.
  rewrite bool_decide_eq_false_2 in Hi' by done.
  apply IH; [congruence | congruence |].
  intros y Hy. rewrite step_labelOf. apply Hmid. by apply list_elem_of_further.
Qed.

(** The label [l2], met inside the subroutine of [sub], gets the label of
    [sub] as parent and widens the range of [sub]. *)
Lemma step_assign sub l2 t :
  inSub t = true → lastParent t = Some sub →
  labelOf (objects t) l2 ∉ subs →
  sub ≠ l2 → sub < length (objects t) → l2 < length (objects t) →
  parentOf (objects (step t l2)) l2 = labelOf (objects t) sub
  ∧ rangeOf (objects (step t l2)) l2 = rangeOf (objects t) l2
  ∧ contains (rangeOf (objects (step t l2)) sub)
      (rangeOf (objects (step t l2)) l2) = true
  ∧ lastParent (step t l2) = Some sub.
Proof.
  intros Hi Hp Hs Hne Hsub Hl2.
  destruct (trackLabel_flags subs before t l2) as [Hp' _].
  rewrite bool_decide_eq_false_2 in Hp' by done.
  rewrite trackLabel_objects, Hi, Hp, bool_decide_eq_false_2 by done.
  simpl. rewrite parentOf_setRange, parentOf_setParent_eq by done.
  rewrite rangeOf_setRange_ne, rangeOf_setRange_eq
    by (rewrite ?length_alter; done).
  rewrite !rangeOf_setParent.
  split_and!; try done; [apply contains_union_r | congruence].
Qed.

(** What the rest of the labels leave in place for a label [l2] that is
    never the current parent. *)
Lemma run_after sub l2 rest t :
  l2 ∉ rest → lastParent t ≠ Some l2 →
  contains (rangeOf (objects t) sub) (rangeOf (objects t) l2) = true →
  parentOf (objects (run t rest)) l2 = parentOf (objects t) l2
  ∧ contains (rangeOf (objects (run t rest)) sub)
      (rangeOf (objects (run t rest)) l2) = true.
Proof.
  revert t. induction rest as [|x rest IH]; intros t Hnot Hp Hc; [done|].
  rewrite run_cons.
  apply not_elem_of_cons in Hnot as [Hx Hrest].
  destruct (trackLabel_flags subs before t x) as [Hp' _].
  assert (parentOf (objects (step t x)) l2 = parentOf (objects t) l2
          ∧ contains (rangeOf (objects (step t x)) sub)
              (rangeOf (objects (step t x)) l2) = true) as [Hpar Hcon].
  { rewrite trackLabel_objects.
    destruct (bool_decide (labelOf (objects t) x ∈ subs)); [done|].
    destruct (inSub t); [|done].
    destruct (lastParent t) as [p|] eqn:Ep; [|done].
    assert (p ≠ l2) by congruence. assert (x ≠ l2) by congruence. simpl.
    rewrite parentOf_setRange, parentOf_setParent_ne by done.
    split; [done|].
    rewrite (rangeOf_setRange_ne _ p _ l2) by done.
    rewrite !rangeOf_setParent.
    destruct (decide (p = sub)) as [->|Hps];
      [|by rewrite rangeOf_setRange_ne, rangeOf_setParent by done].
    destruct (decide (sub < length (objects t))) as [Hlt|Hge].
    - rewrite rangeOf_setRange_eq by (by rewrite length_alter).
      eapply contains_trans; [apply contains_union_l | exact Hc].
    - unfold rangeOf at 1. rewrite list_lookup_alter_eq.
      rewrite lookup_ge_None_2 by (rewrite length_alter; lia).
      simpl. unfold rangeOf at 1 in Hc.
      by rewrite lookup_ge_None_2 in Hc by lia. }
  destruct (IH (step t x)) as [H1 H2]; try done.
  - rewrite Hp'. destruct (bool_decide _); congruence.
  - split; [congruence | done].
Qed.

End Boundaries.

(** C2, as amended: a label whose name is in [subroutines] always becomes
    the current parent, also inside a subroutine; any other label leaves the
    current parent as it is; a label of [labelsBeforeRts] only clears the
    in-subroutine flag. *)
Theorem call_target_becomes_parent subs before t l :
  lastParent (trackLabel subs before t l) =
    (if bool_decide (labelOf (objects t) l ∈ subs)
     then Some l else lastParent t)
  ∧ inSub (trackLabel subs before t l) =
      (if bool_decide (l ∈ before) then false
       else if bool_decide (labelOf (objects t) l ∈ subs) then true
            else inSub t).
Proof. apply trackLabel_flags. Qed.

(** C2, as stated, fails on two call targets [A] and [B] followed by [C]:
    at [B], met inside the subroutine [A], the current parent becomes [B]. *)
Lemma nested_call_target_replaces_parent :
  ¬ nestedTargetKeepsParent
      (subroutines (this nestedScan)) (labelsBeforeRts nestedScan)
      (track (subroutines (this nestedScan)) (labelsBeforeRts nestedScan)
         (trackStart nestedScan) (take 1 (labels (this nestedScan))))
      (default 0 (labels (this nestedScan) !! 1)).
Proof.
  intros H.
  assert (Some 5 = Some 3) as Habs; [|discriminate].
  apply (H eq_refl 3 eq_refl). vm_compute.
  apply list_elem_of_further, list_elem_of_here.
Qed.

Lemma readDocument_store h f doc :
  (readDocument h f doc).1 =
  objects (track (subroutines (this (scan (scanStart h f) doc)))
             (labelsBeforeRts (scan (scanStart h f) doc))
             (trackStart (scan (scanStart h f) doc))
             (labels (this (scan (scanStart h f) doc)))).
Proof. done. Qed.

Lemma readDocument_file h f doc :
  (readDocument h f doc).2 = this (scan (scanStart h f) doc).
Proof. done. Qed.

(** C4, as amended: when a label [sub] is a call target and a later label
    [l2] is reached with no label from [sub] on recorded at a return line
    and no call target among the labels after [sub] up to [l2], then after
    [readDocument] the parent of [l2] is the label of [sub] and the range of
    [sub] includes the range of [l2]. *)
Theorem label_inside_subroutine h f doc pre sub mid l2 rest :
  labels (readDocument h f doc).2 = pre ++ sub :: mid ++ l2 :: rest →
  labelOf (readDocument h f doc).1 sub ∈ subroutines (readDocument h f doc).2 →
  (∀ x, x ∈ mid ++ [l2] →
        labelOf (readDocument h f doc).1 x
          ∉ subroutines (readDocument h f doc).2) →
  (∀ x, x ∈ sub :: mid → x ∉ labelsBeforeRts (scan (scanStart h f) doc)) →
  parentOf (readDocument h f doc).1 l2 = labelOf (readDocument h f doc).1 sub
  ∧ contains (rangeOf (readDocument h f doc).1 sub)
      (rangeOf (readDocument h f doc).1 l2) = true.
Proof.
  rewrite readDocument_file.
  pose proof (scan_wf_run doc _ (scanStart_wf h f)) as [Hbound Hnodup _ _].
  set (st := scan (scanStart h f) doc) in *.
  assert (∀ r, labelOf (readDocument h f doc).1 r = labelOf (heap st) r)
    as Hlab by (intros r; rewrite readDocument_store; apply track_labelOf).
  intros Hlabels Hsub Hmid Hbefore.
  rewrite Hlab in Hsub. setoid_rewrite Hlab in Hmid. rewrite Hlab.
  rewrite readDocument_store. fold st.
  set (subs := subroutines (this st)) in *.
  set (before := labelsBeforeRts st) in *.
  rewrite Hlabels in Hbound, Hnodup |- *.
  apply NoDup_app in Hnodup as (_ & _ & Hnodup).
  apply NoDup_cons in Hnodup as [Hsubnot Hnodup].
  apply NoDup_app in Hnodup as (_ & Hmidnot & Hnodup).
  apply NoDup_cons in Hnodup as [Hl2not _].
  assert (sub ≠ l2) as Hne.
  { intros ->. apply Hsubnot, elem_of_app. right. apply list_elem_of_here. }
  assert (sub < length (heap st) ∧ l2 < length (heap st)) as [Hsublt Hl2lt].
  { rewrite Forall_forall in Hbound. split; apply Hbound.
    - apply elem_of_app. right. apply list_elem_of_here.
    - apply elem_of_app. right. apply list_elem_of_further, elem_of_app.
      right. apply list_elem_of_here. }
  assert (∀ ls r, labelOf (objects (track subs before (trackStart st) ls)) r
                  = labelOf (heap st) r) as Hrun
    by (intros; apply track_labelOf).
  assert (∀ ls, length (objects (track subs before (trackStart st) ls))
                = length (heap st)) as Hlen
    by (intros; apply track_length).
  replace (pre ++ sub :: mid ++ l2 :: rest)
    with ((((pre ++ [sub]) ++ mid) ++ [l2]) ++ rest)
    by (by rewrite <- !app_assoc).
  rewrite (run_app subs before _ _ rest).
  set (t3 := track subs before (trackStart st) ((pre ++ [sub]) ++ mid)).
  assert (inSub t3 = true ∧ lastParent t3 = Some sub) as [Hi3 Hp3].
  { unfold t3. rewrite run_app. apply run_inside.
    - rewrite run_snoc.
      destruct (trackLabel_flags subs before
                  (track subs before (trackStart st) pre) sub) as [_ ->].
      rewrite bool_decide_eq_false_2
        by (apply Hbefore, list_elem_of_here).
      rewrite bool_decide_eq_true_2; [done|]. by rewrite Hrun.
    - rewrite run_snoc.
      destruct (trackLabel_flags subs before
                  (track subs before (trackStart st) pre) sub) as [-> _].
      rewrite bool_decide_eq_true_2; [done|]. by rewrite Hrun.
    - intros x Hx. rewrite Hrun. split.
      + apply Hmid, elem_of_app. by left.
      + by apply Hbefore, list_elem_of_further. }
  rewrite run_snoc. fold t3.
  destruct (step_assign subs before sub l2 t3) as (Hpar & Hrng & Hcon & Hp4);
    try done.
  { unfold t3. rewrite Hrun. apply Hmid, elem_of_app. right.
    apply list_elem_of_here. }
  { unfold t3. by rewrite Hlen. }
  { unfold t3. by rewrite Hlen. }
  destruct (run_after subs before sub l2 rest (trackLabel subs before t3 l2))
    as [Hfin Hcfin]; try done.
  { rewrite Hp4. congruence. }
  split; [|done].
  rewrite Hfin, Hpar. unfold t3. by rewrite Hrun.
Qed.

Lemma label_inside_subroutine_witness :
  parentOf (readDocument [] (newFile "a.s") subDoc).1 4 = "SUB"
  ∧ contains (rangeOf (readDocument [] (newFile "a.s") subDoc).1 2)
      (rangeOf (readDocument [] (newFile "a.s") subDoc).1 4) = true.
Proof.
  apply (label_inside_subroutine [] (newFile "a.s") subDoc [] 2 [] 4 []).
  - reflexivity.
  - vm_compute. apply list_elem_of_here.
  - intros x Hx. apply list_elem_of_singleton in Hx as ->. vm_compute.
    intros H. apply list_elem_of_singleton in H. discriminate.
  - intros x Hx. apply list_elem_of_singleton in Hx as ->. vm_compute.
    intros H. apply list_elem_of_singleton in H. discriminate.
Defined.

(** C4, as stated, fails when a call target lies between: in [A:], [B:],
    [C:], [D:] with call targets [A] and [B] and the return recorded at
    [D], the parent of [C] is [B], not [A]. *)
Lemma later_label_parent_refuted :
  ¬ laterLabelGetsParent [] (newFile "a.s") nestedDoc [] 3 [5] 7 [9].
Proof.
  intros H. destruct H as [Hpar _].
  - reflexivity.
  - vm_compute. apply list_elem_of_here.
  - intros x Hx. vm_compute. intros Hb.
    apply list_elem_of_singleton in Hb as ->.
    apply elem_of_cons in Hx as [Hx|Hx]; [discriminate|].
    apply list_elem_of_singleton in Hx. discriminate.
  - vm_compute in Hpar. discriminate.
Qed.

(** Every object of [labelsBeforeRts] was [lastLabel] at a return line. *)
Lemma before_recorded h f doc r :
  r ∈ labelsBeforeRts (scan (scanStart h f) doc) →
  ∃ dpre rl dpost,
    doc = dpre ++ rl :: dpost ∧ isReturnLine rl = true
    ∧ lastLabel (scan (scanStart h f) (dpre ++ [rl])) = Some r.
Proof.
  induction doc as [|l doc IH] using rev_ind.
  - intros H. by apply elem_of_nil in H.
  - rewrite scan_snoc, scanLine_before, elem_of_app. intros [H|H].
    + destruct (IH H) as (dpre & rl & dpost & -> & Hrl & Hlast).
      exists dpre, rl, (dpost ++ [l]). by rewrite <- app_assoc.
    + destruct (isReturnLine l) eqn:E; [|by apply elem_of_nil in H].
      exists doc, l, []. rewrite scan_snoc. split_and!; try done.
      destruct (lastLabel _); simpl in H; [|by apply elem_of_nil in H].
      by apply list_elem_of_singleton in H as ->.
Qed.

(** [lastLabel] is always the object pushed for a global label line. *)
Lemma lastLabel_origin h f doc r :
  lastLabel (scan (scanStart h f) doc) = Some r →
  ∃ gpre g gpost,
    doc = gpre ++ g :: gpost ∧ isGlobalLabelLine g = true
    ∧ labelObject h f gpre g r.
Proof.
  induction doc as [|l doc IH] using rev_ind; [done|].
  rewrite scan_snoc, scanLine_lastLabel.
  destruct (isGlobalLabelLine l) eqn:E.
  - intros [= <-]. exists doc, l, []. split_and!; try done.
    unfold labelObject. rewrite scan_snoc, scanLine_labels.
    unfold isGlobalLabelLine in E. apply andb_true_iff in E as [-> _]. done.
  - intros H. destruct (IH H) as (gpre & g & gpost & -> & Hg & Ho).
    exists gpre, g, (gpost ++ [l]). by rewrite <- app_assoc.
Qed.

(** C10: at a return line [labelsBeforeRts] receives the object that is
    [lastLabel] there; the label at which the in-subroutine state ends is an
    object of [labelsBeforeRts], so it was [lastLabel] at a return line of
    the document, and it is the object pushed on [labels] for a label line
    that is not local. *)
Theorem subroutine_ended_by_recorded_global_label h f doc :
  let st := scan (scanStart h f) doc in
  let subs := subroutines (this st) in
  let before := labelsBeforeRts st in
  (∀ dpre rl dpost r,
     doc = dpre ++ rl :: dpost → isReturnLine rl = true →
     lastLabel (scan (scanStart h f) (dpre ++ [rl])) = Some r →
     r ∈ before)
  ∧ (∀ pre l post,
       labels (this st) = pre ++ l :: post →
       inSub (track subs before (trackStart st) pre) = true
       ∨ labelOf (heap st) l ∈ subs →
       inSub (track subs before (trackStart st) (pre ++ [l])) = false →
       l ∈ before
       ∧ (∃ dpre rl dpost,
            doc = dpre ++ rl :: dpost ∧ isReturnLine rl = true
            ∧ lastLabel (scan (scanStart h f) (dpre ++ [rl])) = Some l)
       ∧ (∃ gpre g gpost,
            doc = gpre ++ g :: gpost ∧ isLabelLine g = true
            ∧ isLocalLine g = false ∧ labelObject h f gpre g l)).
Proof.
  intros st subs before. split.
  - intros dpre rl dpost r Hdoc Hrl Hlast. subst before st.
    rewrite Hdoc, cons_snoc_app, scan_app.
    eapply elem_of_prefix; [|apply (g_before _ _ (scan_grows _ _))].
    rewrite scan_snoc, scanLine_before, Hrl, <- scan_snoc, Hlast.
    apply elem_of_app. right. by apply list_elem_of_singleton.
  - intros pre l post _ Hin Hout.
    rewrite run_snoc in Hout.
    destruct (trackLabel_flags subs before
                (track subs before (trackStart st) pre) l) as [_ Hflag].
    rewrite Hout in Hflag.
    assert (l ∈ before) as Hl.
    { destruct (decide (l ∈ before)) as [|Hn]; [done|].
      rewrite (bool_decide_eq_false_2 _ Hn) in Hflag.
      destruct Hin as [Hin|Hin].
      - rewrite Hin in Hflag. by destruct (bool_decide _).
      - rewrite bool_decide_eq_true_2 in Hflag; [done|].
        by rewrite track_labelOf. }
    destruct (before_recorded h f doc l Hl)
      as (dpre & rl & dpost & Hdoc & Hrl & Hlast).
    split_and!; [done | by exists dpre, rl, dpost |].
    destruct (lastLabel_origin h f _ l Hlast)
      as (gpre & g & gpost & Hpre & Hg & Ho).
    unfold isGlobalLabelLine in Hg.
    apply andb_true_iff in Hg as [Hg1 Hg2]. apply negb_true_iff in Hg2.
    exists gpre, g, (gpost ++ dpost). split_and!; try done.
    rewrite Hdoc, cons_snoc_app, Hpre. by rewrite <- app_assoc.
Qed.

Lemma subroutine_ended_by_recorded_global_label_witness :
  4 ∈ labelsBeforeRts (scan (scanStart [] (newFile "a.s")) subDoc)
  ∧ (∃ dpre rl dpost,
       subDoc = dpre ++ rl :: dpost ∧ isReturnLine rl = true
       ∧ lastLabel (scan (scanStart [] (newFile "a.s")) (dpre ++ [rl]))
         = Some 4)
  ∧ (∃ gpre g gpost,
       subDoc = gpre ++ g :: gpost ∧ isLabelLine g = true
       ∧ isLocalLine g = false ∧ labelObject [] (newFile "a.s") gpre g 4).
Proof.
  apply (proj2 (subroutine_ended_by_recorded_global_label [] (newFile "a.s")
                  subDoc) [2] 4 []); [reflexivity | by left | reflexivity].
Defined.

(** ** Reading a document again *)

Lemma shiftRefs_snoc n rs r : shiftRefs n rs ++ [n + r] = shiftRefs n (rs ++ [r]).
Proof. unfold shiftRefs. by rewrite fmap_app. Qed.

Lemma elem_of_shiftRefs n rs r : n + r ∈ shiftRefs n rs ↔ r ∈ rs.
Proof.
  unfold shiftRefs. rewrite list_elem_of_fmap. split.
  - intros (x & Hx & Hin). by replace r with x by lia.
  - intros H. by exists r.
Qed.

Lemma lookup_shift (h0 h : Store) r : (h0 ++ h) !! (length h0 + r) = h !! r.
Proof. rewrite lookup_app_r by lia. f_equal. lia. Qed.

Lemma labelOf_shift (h0 h : Store) r :
  labelOf (h0 ++ h) (length h0 + r) = labelOf h r.
Proof. unfold labelOf. by rewrite lookup_shift. Qed.

Lemma rangeOf_shift (h0 h : Store) r :
  rangeOf (h0 ++ h) (length h0 + r) = rangeOf h r.
Proof. unfold rangeOf. by rewrite lookup_shift. Qed.

Lemma deref_shift (h0 h : Store) rs :
  deref (h0 ++ h) (shiftRefs (length h0) rs) = deref h rs.
Proof.
  unfold deref, shiftRefs. rewrite <- list_fmap_compose.
  apply list_fmap_ext. intros _ r _. simpl. apply lookup_shift.
Qed.

Lemma contents_shift (h0 h : Store) f :
  contents (h0 ++ h, shiftFile (length h0) f) = contents (h, f).
Proof. unfold contents; simpl. by rewrite !deref_shift. Qed.

Section Shift.
Context (h0 : Store).

Local Abbreviation n := (length h0).

Local Abbreviation shiftable := (shiftsThrough (length h0)).

Lemma pushDefined_shiftable : shiftable pushDefined.
Proof. intros r f. unfold pushDefined, shiftFile; simpl. by rewrite shiftRefs_snoc. Qed.

Lemma pushReferred_shiftable : shiftable pushReferred.
Proof. intros r f. unfold pushReferred, shiftFile; simpl. by rewrite shiftRefs_snoc. Qed.

Lemma pushVariable_shiftable : shiftable pushVariable.
Proof. intros r f. unfold pushVariable, shiftFile; simpl. by rewrite shiftRefs_snoc. Qed.

Lemma pushLabel_shiftable : shiftable pushLabel.
Proof. intros r f. unfold pushLabel, shiftFile; simpl. by rewrite shiftRefs_snoc. Qed.

Lemma pushMacro_shiftable : shiftable pushMacro.
Proof. intros r f. unfold pushMacro, shiftFile; simpl. by rewrite shiftRefs_snoc. Qed.

Lemma pushDcLabel_shiftable : shiftable pushDcLabel.
Proof. intros r f. unfold pushDcLabel, shiftFile; simpl. by rewrite shiftRefs_snoc. Qed.

Lemma pushIncludedFile_shiftable : shiftable pushIncludedFile.
Proof.
  intros r f. unfold pushIncludedFile, shiftFile; simpl.
  by rewrite shiftRefs_snoc.
Qed.

Lemma withFile_shift st f :
  withFile (shiftScan h0 st) (shiftFile n f) = shiftScan h0 (withFile st f).
Proof. done. Qed.

Lemma allocInto_shift push s r v st :
  shiftable push →
  allocInto push s r v (shiftScan h0 st) =
  (shiftScan h0 (allocInto push s r v st).1, n + (allocInto push s r v st).2).
Proof.
  intros Hpush. unfold allocInto, alloc, withFile, shiftScan; simpl.
  rewrite length_app, Hpush. by rewrite <- app_assoc.
Qed.

Lemma lastLabelText_shift st :
  lastLabelText (shiftScan h0 st) = lastLabelText st.
Proof.
  unfold lastLabelText; simpl. destruct (lastLabel st); simpl; [|done].
  apply labelOf_shift.
Qed.

Lemma recordSymbols_shift l st :
  recordSymbols l (shiftScan h0 st) = shiftScan h0 (recordSymbols l st).
Proof.
  unfold recordSymbols.
  assert (∀ results acc,
    foldl (λ acc res,
             match res with
             | (Some symbol, Some range) =>
                 fst (allocInto pushReferred symbol range None acc)
             | _ => acc
             end) (shiftScan h0 acc) results =
    shiftScan h0
      (foldl (λ acc res,
                match res with
                | (Some symbol, Some range) =>
                    fst (allocInto pushReferred symbol range None acc)
                | _ => acc
                end) acc results)) as Hloop.
  { intros results. induction results as [|[[s|] [r|]] results IH];
      intros acc; cbn [foldl]; try done.
    rewrite allocInto_shift by apply pushReferred_shiftable. apply IH. }
  destruct (symbolFromLabelOrVariable l) as [[s|] [r|]];
    rewrite ?Hloop; try (destruct (Str.nonEmpty (mnemonic l)));
    rewrite ?allocInto_shift
      by first [apply pushReferred_shiftable | apply pushDefined_shiftable];
    done.
Qed.

Lemma recordLabel_shift i l st :
  recordLabel i l (shiftScan h0 st) = shiftScan h0 (recordLabel i l st).
Proof.
  unfold recordLabel. rewrite lastLabelText_shift.
  destruct (Str.nonEmpty (label l)), (isMacro i);
    rewrite ?allocInto_shift
      by first [apply pushMacro_shiftable | apply pushLabel_shiftable];
    simpl; try done.
  by destruct (Str.startsWith _ _).
Qed.

Lemma recordVariable_shift l st :
  recordVariable l (shiftScan h0 st) = shiftScan h0 (recordVariable l st).
Proof.
  unfold recordVariable. destruct (Str.nonEmpty (variable l)); [|done].
  by rewrite allocInto_shift by apply pushVariable_shiftable.
Qed.

Lemma recordDirective_shift i l st :
  recordDirective i l (shiftScan h0 st) = shiftScan h0 (recordDirective i l st).
Proof.
  unfold recordDirective.
  destruct (Str.includes i "bsr"); [done|].
  destruct (isData i).
  { simpl. destruct (lastLabel st) as [r|]; simpl; [|done].
    unfold withFile, shiftScan; simpl. by rewrite pushDcLabel_shiftable. }
  destruct (Str.includes i "rts").
  { simpl. destruct (lastLabel st) as [r|]; simpl; [|done].
    unfold pushBeforeRts, shiftScan; simpl. by rewrite shiftRefs_snoc. }
  destruct (bool_decide (i = "incdir")); [done|].
  destruct (bool_decide (i = "include")); [|done].
  rewrite allocInto_shift by apply pushIncludedFile_shiftable.
  match goal with
  | |- context [allocInto pushIncludedFile ?a ?b ?c st] =>
      destruct (allocInto pushIncludedFile a b c st) as [st1 s]
  end; simpl.
  unfold withFile, shiftScan; simpl. by rewrite pushDefined_shiftable.
Qed.

Lemma scanLine_shift st l :
  scanLine (shiftScan h0 st) l = shiftScan h0 (scanLine st l).
Proof.
  unfold scanLine.
  by rewrite recordSymbols_shift, recordLabel_shift, recordVariable_shift,
       recordDirective_shift.
Qed.

Lemma scan_shift doc st :
  scan (shiftScan h0 st) doc = shiftScan h0 (scan st doc).
Proof.
  revert st. induction doc as [|l doc IH]; intros st; [done|].
  by rewrite !scan_cons, scanLine_shift, IH.
Qed.

Lemma trackLabel_shift subs before t l :
  trackLabel subs (shiftRefs n before) (shiftTrack h0 t) (n + l) =
  shiftTrack h0 (trackLabel subs before t l).
Proof.
  unfold trackLabel. destruct t as [h i p]; simpl.
  rewrite labelOf_shift.
  rewrite (bool_decide_ext _ _ (elem_of_shiftRefs n before l)).
  destruct (bool_decide (labelOf h l ∈ subs)), (bool_decide (l ∈ before)),
    i, p as [p|]; simpl; try done;
    unfold shiftTrack; simpl;
    by rewrite labelOf_shift, !alter_app_r, !rangeOf_shift.
Qed.

Lemma track_shift subs before ls t :
  track subs (shiftRefs n before) (shiftTrack h0 t) (shiftRefs n ls) =
  shiftTrack h0 (track subs before t ls).
Proof.
  revert t. unfold track. induction ls as [|l ls IH]; intros t; [done|].
  simpl. by rewrite trackLabel_shift, IH.
Qed.

End Shift.

(** A call on the store [h0] does what a call on the empty store does, with
    the new objects allocated after those of [h0]. *)
Lemma readDocument_shift h0 f doc :
  readDocument h0 f doc =
  (h0 ++ (readDocument [] f doc).1,
   shiftFile (length h0) (readDocument [] f doc).2).
Proof.
  unfold readDocument, inferBoundaries.
  assert (scanStart h0 f = shiftScan h0 (scanStart [] f)) as ->.
  { unfold scanStart, shiftScan; simpl. by rewrite app_nil_r. }
  rewrite scan_shift. simpl.
  change (trackStart (shiftScan h0 ?st)) with (shiftTrack h0 (trackStart st)).
  by rewrite track_shift.
Qed.

(** Only the uri of the file object passed in matters. *)
Lemma readDocument_cleared h f f' doc :
  uri f = uri f' → readDocument h f doc = readDocument h f' doc.
Proof.
  intros H. unfold readDocument, scanStart, clear. by rewrite H.
Qed.

(** C5: a call of [readDocument] first clears the file object, so what it
    leaves does not depend on what the object held; a second call on the
    same document leaves a file with the same content as the first, read
    through freshly allocated objects. *)
Theorem readDocument_idempotent h f doc :
  contents (readDocument h f doc) = contents (readDocument [] (clear f) doc)
  ∧ contents (readDocument (readDocument h f doc).1
                (readDocument h f doc).2 doc)
    = contents (readDocument h f doc).
Proof.
  assert (∀ h' f', uri f' = uri f →
            contents (readDocument h' f' doc)
            = contents (readDocument [] (clear f) doc)) as H.
  { intros h' f' Hu. rewrite readDocument_shift, contents_shift.
    f_equal. by apply readDocument_cleared. }
  split; [by apply H|].
  rewrite (H h f eq_refl). apply H.
  rewrite readDocument_file. apply scan_uri.
Qed.

(** ** Looking up a local label from the completion provider *)

Lemma findLabelPrefix_S texts j :
  findLabelPrefix texts (S j) =
  match texts !! S j ≫= matchLeadingWord with
  | Some m => m
  | None => findLabelPrefix texts j
  end.
Proof. done. Qed.







(** ** What each block of the loop body allocates and where it pushes it *)

Ltac unfold_alloc :=
  unfold allocInto, alloc, withFile, pushDefined, pushReferred, pushVariable.

Lemma referred_loop_effect results acc :
  let acc' :=
    foldl (λ acc res,
             match res with
             | (Some symbol, Some range) =>
                 fst (allocInto pushReferred symbol range None acc)
             | _ => acc
             end) acc results in
  let objs :=
    omap (λ res, match res with
                 | (Some symbol, Some range) =>
                     Some (newSymbol symbol (uri (this acc)) range None)
                 | _ => None
                 end) results in
  heap acc' = heap acc ++ objs
  ∧ referredSymbols (this acc') =
      referredSymbols (this acc) ++ seq (length (heap acc)) (length objs)
  ∧ definedSymbols (this acc') = definedSymbols (this acc)
  ∧ variables (this acc') = variables (this acc)
  ∧ uri (this acc') = uri (this acc).
Proof.
  revert acc. induction results as [|[[s|] [r|]] results IH]; intros acc;
    cbn [foldl omap list_omap]; try apply IH.
  - simpl. by rewrite !app_nil_r.
  - destruct (IH (fst (allocInto pushReferred s r None acc)))
      as (Hh & Hr & Hd & Hv & Hu).
    cbn zeta in *. rewrite Hh, Hr, Hd, Hv, Hu. clear. unfold_alloc. simpl.
    rewrite length_app, <- !app_assoc. simpl.
    split_and!; try done. do 2 f_equal. by rewrite Nat.add_1_r.
Qed.

Lemma recordSymbols_effect l st :
  heap (recordSymbols l st) =
    heap st ++ definedObjects (uri (this st)) l
            ++ referredObjects (uri (this st)) l
  ∧ definedSymbols (this (recordSymbols l st)) =
      definedSymbols (this st) ++
        seq (length (heap st)) (length (definedObjects (uri (this st)) l))
  ∧ referredSymbols (this (recordSymbols l st)) =
      referredSymbols (this st) ++
        seq (length (heap st)) (length (referredObjects (uri (this st)) l))
  ∧ variables (this (recordSymbols l st)) = variables (this st).
Proof.
  unfold recordSymbols, definedObjects, referredObjects, definesSymbol.
  pose proof (referred_loop_effect (symbolFromData l) st) as Hloop.
  cbn zeta in Hloop. set (acc' := foldl _ st (symbolFromData l)) in *.
  destruct Hloop as (Hh & Hr & Hd & Hv & Hu). clearbody acc'.
  destruct (symbolFromLabelOrVariable l) as [[s|] [r|]];
    try (unfold_alloc; simpl; by rewrite ?app_nil_r);
    (destruct (Str.nonEmpty (mnemonic l));
     [ unfold_alloc; simpl; rewrite Hh, Hr, Hd, Hv, Hu, !length_app; simpl;
       rewrite <- !app_assoc, seq_app; simpl;
       by rewrite ?app_nil_r
     | simpl; rewrite Hh, Hr, Hd, Hv, ?app_nil_r; done ]).
Qed.

Lemma recordLabel_others i l st :
  definedSymbols (this (recordLabel i l st)) = definedSymbols (this st)
  ∧ referredSymbols (this (recordLabel i l st)) = referredSymbols (this st)
  ∧ variables (this (recordLabel i l st)) = variables (this st).
Proof. unfold_scan. split_ifs; done. Qed.

Lemma recordVariable_effect l st :
  heap (recordVariable l st) = heap st ++ variableObjects (uri (this st)) l
  ∧ variables (this (recordVariable l st)) =
      variables (this st) ++
        seq (length (heap st)) (length (variableObjects (uri (this st)) l))
  ∧ definedSymbols (this (recordVariable l st)) = definedSymbols (this st)
  ∧ referredSymbols (this (recordVariable l st)) = referredSymbols (this st).
Proof.
  unfold_scan. unfold variableObjects.
  destruct (Str.nonEmpty (variable l)); simpl; by rewrite ?app_nil_r.
Qed.

Lemma recordDirective_effect l st :
  heap (recordDirective (instruct l) l st) =
    heap st ++ includeObjects (uri (this st)) l
  ∧ definedSymbols (this (recordDirective (instruct l) l st)) =
      definedSymbols (this st) ++
        seq (length (heap st)) (length (includeObjects (uri (this st)) l))
  ∧ includedFiles (this (recordDirective (instruct l) l st)) =
      includedFiles (this st) ++
        seq (length (heap st)) (length (includeObjects (uri (this st)) l))
  ∧ referredSymbols (this (recordDirective (instruct l) l st)) =
      referredSymbols (this st)
  ∧ variables (this (recordDirective (instruct l) l st)) = variables (this st).
Proof.
  unfold includeObjects. case_bool_decide as Hi.
  - rewrite Hi. done.
  - unfold_scan. rewrite (bool_decide_eq_false_2 _ Hi).
    split_ifs; simpl; by rewrite ?app_nil_r.
Qed.

(** ** Reading an array through a store that grows *)

Lemma deref_app (H : Store) rs rs' :
  deref H (rs ++ rs') = deref H rs ++ deref H rs'.
Proof. unfold deref. apply fmap_app. Qed.

Lemma deref_bounded (H : Store) rs os :
  deref H rs = Some <$> os → Forall (λ r, r < length H) rs.
Proof.
  revert os. induction rs as [|r rs IH]; intros [|o os] Heq; try done.
  injection Heq as Hr Hrs. constructor; [|by eapply IH].
  by eapply lookup_lt_Some.
Qed.

Lemma deref_keep (H O : Store) rs os :
  deref H rs = Some <$> os → deref (H ++ O) rs = Some <$> os.
Proof.
  intros Heq. rewrite <- Heq. apply deref_bounded in Heq.
  unfold deref. apply Forall_fmap_ext. eapply Forall_impl; [exact Heq|].
  intros r Hr. simpl. by apply lookup_app_l.
Qed.

Lemma deref_fresh (H O : Store) :
  deref (H ++ O) (seq (length H) (length O)) = Some <$> O.
Proof.
  revert H. induction O as [|o O IH]; intros H; [done|].
  simpl. unfold deref in *. simpl. f_equal.
  - by rewrite lookup_app_r, Nat.sub_diag.
  - specialize (IH (H ++ [o])). rewrite length_app in IH. simpl in IH.
    rewrite Nat.add_1_r, <- app_assoc in IH. exact IH.
Qed.

Lemma deref_grow (H O : Store) rs os :
  deref H rs = Some <$> os →
  deref (H ++ O) (rs ++ seq (length H) (length O)) = Some <$> (os ++ O).
Proof.
  intros Heq. rewrite deref_app, fmap_app, deref_fresh.
  by rewrite (deref_keep _ _ _ _ Heq).
Qed.

(** One block of the loop body, seen from an array [X] of the file: the
    block keeps the array, or pushes on it all the objects it allocates. *)
Lemma block_keep (X : SymbolFile → list ref) (s s' : Scan) O os :
  heap s' = heap s ++ O → X (this s') = X (this s) →
  deref (heap s) (X (this s)) = Some <$> os →
  deref (heap s') (X (this s')) = Some <$> os.
Proof. intros -> ->. apply deref_keep. Qed.

Lemma block_grow (X : SymbolFile → list ref) (s s' : Scan) O os :
  heap s' = heap s ++ O →
  X (this s') = X (this s) ++ seq (length (heap s)) (length O) →
  deref (heap s) (X (this s)) = Some <$> os →
  deref (heap s') (X (this s')) = Some <$> (os ++ O).
Proof. intros -> ->. apply deref_grow. Qed.

Section LineLayout.
Context (st : Scan) (l : ASMLine).

Let st1 := recordSymbols l st.
Let st2 := recordLabel (instruct l) l st1.
Let st3 := recordVariable l st2.

Local Lemma uri_st1 : uri (this st1) = uri (this st).
Proof. apply (sc_uri _ _ (recordSymbols_sameCore l st)). Qed.

Local Lemma uri_st2 : uri (this st2) = uri (this st).
Proof.
  unfold st2. rewrite (g_uri _ _ (recordLabel_grows (instruct l) l st1)).
  apply uri_st1.
Qed.

Local Lemma uri_st3 : uri (this st3) = uri (this st).
Proof.
  unfold st3. rewrite (sc_uri _ _ (recordVariable_sameCore l st2)).
  apply uri_st2.
Qed.

Local Lemma heap_st1 :
  heap st1 = heap st ++ (definedObjects (uri (this st)) l
                         ++ referredObjects (uri (this st)) l).
Proof. unfold st1. by destruct (recordSymbols_effect l st) as (-> & _). Qed.

Local Lemma heap_st3 :
  heap st3 = heap st2 ++ variableObjects (uri (this st)) l.
Proof.
  unfold st3. destruct (recordVariable_effect l st2) as (-> & _).
  by rewrite uri_st2.
Qed.

Local Lemma heap_st4 :
  heap (scanLine st l) = heap st3 ++ includeObjects (uri (this st)) l.
Proof.
  rewrite scanLine_unfold. fold st1 st2 st3.
  destruct (recordDirective_effect l st3) as (-> & _). by rewrite uri_st3.
Qed.

Lemma scanLine_deref_variables os :
  deref (heap st) (variables (this st)) = Some <$> os →
  deref (heap (scanLine st l)) (variables (this (scanLine st l))) =
  Some <$> (os ++ variableObjects (uri (this st)) l).
Proof.
  intros H0.
  assert (deref (heap st1) (variables (this st1)) = Some <$> os) as H1.
  { eapply block_keep; [apply heap_st1| |exact H0].
    unfold st1. by destruct (recordSymbols_effect l st) as (_ & _ & _ & ->). }
  assert (deref (heap st2) (variables (this st2)) = Some <$> os) as H2.
  { eapply block_keep; [apply recordLabel_heap| |exact H1].
    unfold st2. by destruct (recordLabel_others (instruct l) l st1) as (_ & _ & ->). }
  assert (deref (heap st3) (variables (this st3)) =
          Some <$> (os ++ variableObjects (uri (this st)) l)) as H3.
  { eapply block_grow; [apply heap_st3| |exact H2].
    unfold st3. destruct (recordVariable_effect l st2) as (_ & -> & _).
    by rewrite uri_st2. }
  eapply block_keep; [apply heap_st4| |exact H3].
  rewrite scanLine_unfold. fold st1 st2 st3.
  by destruct (recordDirective_effect l st3) as (_ & _ & _ & _ & ->).
Qed.

Lemma scanLine_deref_referred os :
  deref (heap st) (referredSymbols (this st)) = Some <$> os →
  deref (heap (scanLine st l)) (referredSymbols (this (scanLine st l))) =
  Some <$> (os ++ referredObjects (uri (this st)) l).
Proof.
  intros H0.
  assert (deref (heap st1) (referredSymbols (this st1)) =
          Some <$> (os ++ referredObjects (uri (this st)) l)) as H1.
  { destruct (recordSymbols_effect l st) as (Hh & _ & Hr & _).
    fold st1 in Hh, Hr. rewrite Hh, Hr.
    unfold definedObjects, referredObjects, definesSymbol in *.
    destruct (symbolFromLabelOrVariable l) as [[s|] [r|]]; simpl;
      rewrite ?app_nil_r; try (by apply deref_grow);
      by apply deref_keep. }
  assert (deref (heap st2) (referredSymbols (this st2)) =
          Some <$> (os ++ referredObjects (uri (this st)) l)) as H2.
  { eapply block_keep; [apply recordLabel_heap| |exact H1].
    unfold st2. by destruct (recordLabel_others (instruct l) l st1) as (_ & -> & _). }
  assert (deref (heap st3) (referredSymbols (this st3)) =
          Some <$> (os ++ referredObjects (uri (this st)) l)) as H3.
  { eapply block_keep; [apply heap_st3| |exact H2].
    unfold st3. by destruct (recordVariable_effect l st2) as (_ & _ & _ & ->). }
  eapply block_keep; [apply heap_st4| |exact H3].
  rewrite scanLine_unfold. fold st1 st2 st3.
  by destruct (recordDirective_effect l st3) as (_ & _ & _ & -> & _).
Qed.

Lemma scanLine_deref_defined os :
  deref (heap st) (definedSymbols (this st)) = Some <$> os →
  deref (heap (scanLine st l)) (definedSymbols (this (scanLine st l))) =
  Some <$> (os ++ definedObjects (uri (this st)) l
               ++ includeObjects (uri (this st)) l).
Proof.
  intros H0.
  assert (deref (heap st1) (definedSymbols (this st1)) =
          Some <$> (os ++ definedObjects (uri (this st)) l)) as H1.
  { destruct (recordSymbols_effect l st) as (Hh & Hd & _).
    fold st1 in Hh, Hd. rewrite Hh, Hd.
    unfold definedObjects, referredObjects, definesSymbol in *.
    destruct (symbolFromLabelOrVariable l) as [[s|] [r|]]; simpl;
      rewrite ?app_nil_r; try (by apply deref_keep).
    by apply (deref_grow _ [_]). }
  assert (deref (heap st2) (definedSymbols (this st2)) =
          Some <$> (os ++ definedObjects (uri (this st)) l)) as H2.
  { eapply block_keep; [apply recordLabel_heap| |exact H1].
    unfold st2. by destruct (recordLabel_others (instruct l) l st1) as (-> & _). }
  assert (deref (heap st3) (definedSymbols (this st3)) =
          Some <$> (os ++ definedObjects (uri (this st)) l)) as H3.
  { eapply block_keep; [apply heap_st3| |exact H2].
    unfold st3. by destruct (recordVariable_effect l st2) as (_ & _ & -> & _). }
  rewrite app_assoc.
  eapply block_grow; [apply heap_st4| |exact H3].
  rewrite scanLine_unfold. fold st1 st2 st3.
  destruct (recordDirective_effect l st3) as (_ & -> & _). by rewrite uri_st3.
Qed.

Lemma scanLine_deref_included os :
  deref (heap st) (includedFiles (this st)) = Some <$> os →
  deref (heap (scanLine st l)) (includedFiles (this (scanLine st l))) =
  Some <$> (os ++ includeObjects (uri (this st)) l).
Proof.
  intros H0.
  assert (deref (heap st1) (includedFiles (this st1)) = Some <$> os) as H1.
  { eapply block_keep; [apply heap_st1| |exact H0].
    apply (sc_included _ _ (recordSymbols_sameCore l st)). }
  assert (deref (heap st2) (includedFiles (this st2)) = Some <$> os) as H2.
  { eapply block_keep; [apply recordLabel_heap| |exact H1].
    unfold st2.
    by destruct (recordLabel_keeps (instruct l) l st1) as (_ & _ & _ & -> & _). }
  assert (deref (heap st3) (includedFiles (this st3)) = Some <$> os) as H3.
  { eapply block_keep; [apply heap_st3| |exact H2].
    apply (sc_included _ _ (recordVariable_sameCore l st2)). }
  eapply block_grow; [apply heap_st4| |exact H3].
  rewrite scanLine_unfold. fold st1 st2 st3.
  destruct (recordDirective_effect l st3) as (_ & _ & -> & _).
  by rewrite uri_st3.
Qed.

End LineLayout.

Lemma scanLine_deref_macros st l os :
  deref (heap st) (macros (this st)) = Some <$> os →
  deref (heap (scanLine st l)) (macros (this (scanLine st l))) =
  Some <$> (os ++ (if isMacro (instruct l) then [labelSymbol st l] else [])).
Proof.
  intros H0. rewrite scanLine_macros.
  destruct (g_heap _ _ (scanLine_grows st l)) as [O HO].
  destruct (isMacro (instruct l)) eqn:Em.
  - rewrite deref_app, fmap_app. f_equal.
    + rewrite HO. by apply deref_keep.
    + unfold deref. simpl. rewrite scanLine_labelSymbol; [done|].
      rewrite Em. apply orb_true_r.
  - rewrite !app_nil_r, HO. by apply deref_keep.
Qed.

(** ** The arrays of a scanned document, read through the store *)

Lemma scanStart_deref h f (X : SymbolFile → list ref) :
  X (clear f) = [] → deref (heap (scanStart h f)) (X (this (scanStart h f)))
                     = Some <$> [].
Proof. simpl. by intros ->. Qed.

Lemma scan_deref_variables h f doc :
  deref (heap (scan (scanStart h f) doc))
    (variables (this (scan (scanStart h f) doc)))
  = Some <$> (doc ≫= variableObjects (uri f)).
Proof.
  induction doc as [|l doc IH] using rev_ind; [done|].
  rewrite scan_snoc, bind_app, bind_singleton.
  rewrite (scanLine_deref_variables _ _ _ IH). by rewrite scan_uri.
Qed.

Lemma scan_deref_referred h f doc :
  deref (heap (scan (scanStart h f) doc))
    (referredSymbols (this (scan (scanStart h f) doc)))
  = Some <$> (doc ≫= referredObjects (uri f)).
Proof.
  induction doc as [|l doc IH] using rev_ind; [done|].
  rewrite scan_snoc, bind_app, bind_singleton.
  rewrite (scanLine_deref_referred _ _ _ IH). by rewrite scan_uri.
Qed.

Lemma scan_deref_defined h f doc :
  deref (heap (scan (scanStart h f) doc))
    (definedSymbols (this (scan (scanStart h f) doc)))
  = Some <$> (doc ≫= λ l, definedObjects (uri f) l ++ includeObjects (uri f) l).
Proof.
  induction doc as [|l doc IH] using rev_ind; [done|].
  rewrite scan_snoc, bind_app, bind_singleton.
  rewrite (scanLine_deref_defined _ _ _ IH). by rewrite scan_uri.
Qed.

Lemma scan_deref_included h f doc :
  deref (heap (scan (scanStart h f) doc))
    (includedFiles (this (scan (scanStart h f) doc)))
  = Some <$> (doc ≫= includeObjects (uri f)).
Proof.
  induction doc as [|l doc IH] using rev_ind; [done|].
  rewrite scan_snoc, bind_app, bind_singleton.
  rewrite (scanLine_deref_included _ _ _ IH). by rewrite scan_uri.
Qed.

Lemma withPrefixesFrom_snoc pre doc l :
  withPrefixesFrom pre (doc ++ [l]) =
  withPrefixesFrom pre doc ++ [(pre ++ doc, l)].
Proof.
  revert pre. induction doc as [|x doc IH]; intros pre; simpl.
  - by rewrite app_nil_r.
  - by rewrite IH, <- app_assoc.
Qed.

Lemma withPrefixes_snoc doc l :
  withPrefixes (doc ++ [l]) = withPrefixes doc ++ [(doc, l)].
Proof. apply withPrefixesFrom_snoc. Qed.

Lemma scan_deref_macros h f doc :
  deref (heap (scan (scanStart h f) doc))
    (macros (this (scan (scanStart h f) doc)))
  = Some <$> (withPrefixes doc ≫= λ pl, macroObjects (uri f) pl.1 pl.2).
Proof.
  induction doc as [|l doc IH] using rev_ind; [done|].
  rewrite scan_snoc, withPrefixes_snoc, bind_app, bind_singleton.
  rewrite (scanLine_deref_macros _ _ _ IH). simpl. unfold macroObjects.
  do 2 f_equal. destruct (isMacro (instruct l)); [|done].
  f_equal. destruct (Str.nonEmpty (label l)) eqn:E.
  - by apply labelSymbol_stored.
  - unfold labelSymbol. by rewrite E, scan_uri.
Qed.

(** ** Label objects and the other objects are apart *)

Lemma scanStart_sep h f : scan_sep (scanStart h f).
Proof.
  split; simpl; [constructor|].
  intros r [H|[H|[H|[H|H]]]]; by apply elem_of_nil in H.
Qed.

Lemma elem_of_app_seq (rs : list ref) a k r :
  r ∈ rs ++ seq a k → r ∈ rs ∨ (a ≤ r < a + k).
Proof. rewrite elem_of_app, elem_of_seq. tauto. Qed.

(** A block that leaves [labels] alone and only pushes fresh objects. *)
Lemma sep_block s s' O :
  scan_sep s → heap s' = heap s ++ O →
  labels (this s') = labels (this s) →
  (∀ r, otherRef (this s') r →
        otherRef (this s) r ∨ (length (heap s) ≤ r < length (heap s) + length O)) →
  scan_sep s'.
Proof.
  intros [Hl Ho] Hh Hlab Hnew. split.
  - rewrite Hlab, Hh, length_app. eapply Forall_impl; [exact Hl|].
    simpl. lia.
  - intros r Hr. rewrite Hlab, Hh, length_app.
    destruct (Hnew r Hr) as [Hold|Hfresh].
    + destruct (Ho r Hold). split; [lia|done].
    + split; [lia|]. intros Hin. rewrite Forall_forall in Hl.
      apply Hl in Hin. lia.
Qed.

Lemma recordSymbols_sep l s : scan_sep s → scan_sep (recordSymbols l s).
Proof.
  intros Hs. destruct (recordSymbols_effect l s) as (Hh & Hd & Hr & Hv).
  pose proof (recordSymbols_sameCore l s) as Hc.
  eapply sep_block; [exact Hs | exact Hh | apply (sc_labels _ _ Hc) |].
  intros r. unfold otherRef.
  rewrite Hd, Hr, Hv, (sc_macros _ _ Hc), (sc_included _ _ Hc), length_app.
  intros [H|[H|H]]; [| |tauto]; apply elem_of_app_seq in H as [H|H];
    [tauto | right; lia | tauto | right; lia].
Qed.

Lemma recordVariable_sep l s : scan_sep s → scan_sep (recordVariable l s).
Proof.
  intros Hs. destruct (recordVariable_effect l s) as (Hh & Hv & Hd & Hr).
  pose proof (recordVariable_sameCore l s) as Hc.
  eapply sep_block; [exact Hs | exact Hh | apply (sc_labels _ _ Hc) |].
  intros r. unfold otherRef.
  rewrite Hd, Hr, Hv, (sc_macros _ _ Hc), (sc_included _ _ Hc).
  intros [H|[H|[H|H]]]; [tauto | tauto | | tauto].
  apply elem_of_app_seq in H as [H|H]; [tauto | right; lia].
Qed.

Lemma recordDirective_sep l s :
  scan_sep s → scan_sep (recordDirective (instruct l) l s).
Proof.
  intros Hs.
  destruct (recordDirective_effect l s) as (Hh & Hd & Hi & Hr & Hv).
  destruct (recordDirective_keeps (instruct l) l s) as (Hl & Hm & _).
  eapply sep_block; [exact Hs | exact Hh | exact Hl |].
  intros r. unfold otherRef. rewrite Hd, Hr, Hv, Hm, Hi.
  intros [H|[H|[H|[H|H]]]]; [| tauto | tauto | tauto | ];
    apply elem_of_app_seq in H as [H|H]; [tauto | right; lia | tauto | right; lia].
Qed.

Lemma recordLabel_sep i l s : scan_sep s → scan_sep (recordLabel i l s).
Proof.
  intros [Hl Ho].
  destruct (recordLabel_others i l s) as (Hd & Hr & Hv).
  destruct (recordLabel_keeps i l s) as (_ & _ & _ & Hi & _).
  pose proof (recordLabel_labels i l s) as Hlab.
  pose proof (recordLabel_macros i l s) as Hmac.
  pose proof (recordLabel_heap i l s) as Hh.
  assert (length (heap s) + (if Str.nonEmpty (label l) || isMacro i
                             then 1 else 0)
          = length (heap (recordLabel i l s))) as Hlen.
  { rewrite Hh, length_app.
    by destruct (Str.nonEmpty (label l)), (isMacro i). }
  rewrite Forall_forall in Hl.
  split.
  - rewrite Hlab. apply Forall_app. split.
    + apply Forall_forall. intros r Hr'. apply Hl in Hr'. lia.
    + destruct (Str.nonEmpty (label l)), (isMacro i); simpl in *;
        repeat constructor; lia.
  - intros r. unfold otherRef. rewrite Hd, Hr, Hv, Hi, Hmac, Hlab.
    intros Hin.
    assert (otherRef (this s) r
            ∨ (isMacro i = true ∧ r = length (heap s))) as [Hold|[Hm ->]].
    { unfold otherRef. destruct Hin as [H|[H|[H|[H|H]]]]; try tauto.
      apply elem_of_app in H as [H|H]; [tauto|].
      destruct (isMacro i); [|by apply elem_of_nil in H].
      apply list_elem_of_singleton in H. tauto. }
    + destruct (Ho r Hold) as [Hlt Hnot]. split; [lia|].
      rewrite elem_of_app. intros [H|H]; [done|].
      destruct (_ && _); [|by apply elem_of_nil in H].
      apply list_elem_of_singleton in H. lia.
    + rewrite Hm, orb_true_r in Hlen. rewrite Hm, andb_false_r, app_nil_r.
      split; [lia|]. intros H. apply Hl in H. lia.
Qed.

Lemma scanLine_sep st l : scan_sep st → scan_sep (scanLine st l).
Proof.
  intros H. rewrite scanLine_unfold.
  by apply recordDirective_sep, recordVariable_sep, recordLabel_sep,
    recordSymbols_sep.
Qed.

Lemma scan_sep_run doc st : scan_sep st → scan_sep (scan st doc).
Proof.
  revert st. induction doc as [|l doc IH]; intros st H; [done|].
  rewrite scan_cons. by apply IH, scanLine_sep.
Qed.

(** ** The second loop only touches label objects *)

Lemma trackLabel_outside subs before t l r :
  r ≠ l → lastParent t ≠ Some r →
  objects (trackLabel subs before t l) !! r = objects t !! r
  ∧ lastParent (trackLabel subs before t l) ≠ Some r.
Proof.
  intros Hl Hp. destruct (trackLabel_flags subs before t l) as [Hp' _].
  split.
  - rewrite trackLabel_objects.
    destruct (bool_decide (labelOf (objects t) l ∈ subs)); [done|].
    destruct (inSub t); [|done].
    destruct (lastParent t) as [p|]; [|done].
    assert (p ≠ r) by congruence. simpl.
    by rewrite !list_lookup_alter_ne.
  - rewrite Hp'. destruct (bool_decide _); congruence.
Qed.

Lemma track_outside subs before ls t r :
  r ∉ ls → lastParent t ≠ Some r →
  objects (track subs before t ls) !! r = objects t !! r.
Proof.
  revert t. induction ls as [|l ls IH]; intros t Hnot Hp; [done|].
  apply not_elem_of_cons in Hnot as [Hne Hnot].
  rewrite run_cons.
  destruct (trackLabel_outside subs before t l r Hne Hp) as [Ho Hp'].
  by rewrite IH.
Qed.

(** An object that is not in [labels] leaves [readDocument] as the first
    loop allocated it. *)
Lemma readDocument_outside h f doc r :
  r ∉ labels (this (scan (scanStart h f) doc)) →
  (readDocument h f doc).1 !! r = heap (scan (scanStart h f) doc) !! r.
Proof.
  intros H. rewrite readDocument_store. by apply track_outside.
Qed.

Lemma readDocument_deref_other h f doc (X : SymbolFile → list ref) :
  (∀ r, r ∈ X (this (scan (scanStart h f) doc)) →
        otherRef (this (scan (scanStart h f) doc)) r) →
  deref (readDocument h f doc).1 (X (readDocument h f doc).2) =
  deref (heap (scan (scanStart h f) doc)) (X (this (scan (scanStart h f) doc))).
Proof.
  intros HX. rewrite readDocument_file. unfold deref.
  apply Forall_fmap_ext, Forall_forall. intros r Hr.
  apply readDocument_outside.
  by apply (sep_others _ (scan_sep_run doc _ (scanStart_sep h f))), HX.
Qed.

(** X1: after [readDocument] the array [variables] holds, in document
    order, one symbol for each line with a variable: its name, the range of
    the name and the value text, its parent being its own name; the
    boundary loop never alters these symbols. *)
Theorem variables_content h f doc :
  c_variables (contents (readDocument h f doc)) =
  Some <$> (doc ≫= variableObjects (uri f)).
Proof.
  change (c_variables (contents (readDocument h f doc)))
    with (deref (readDocument h f doc).1 (variables (readDocument h f doc).2)).
  rewrite (readDocument_deref_other h f doc variables)
    by (unfold otherRef; tauto).
  apply scan_deref_variables.
Qed.

(** X2: [referredSymbols] holds, in document order and for each line that
    defines no symbol, the symbols of its data field followed by its
    mnemonic when it has one; a line that defines a label or a variable
    contributes nothing, not even its mnemonic. *)
Theorem referredSymbols_content h f doc :
  c_referredSymbols (contents (readDocument h f doc)) =
  Some <$> (doc ≫= referredObjects (uri f)).
Proof.
  change (c_referredSymbols (contents (readDocument h f doc)))
    with (deref (readDocument h f doc).1 (referredSymbols (readDocument h f doc).2)).
  rewrite (readDocument_deref_other h f doc referredSymbols)
    by (unfold otherRef; tauto).
  apply scan_deref_referred.
Qed.

(** X3: [definedSymbols] holds, line by line, the symbol the line defines
    and then the file it includes, and [includedFiles] holds the included
    files alone; both are read off the first loop unchanged. *)
Theorem definedSymbols_content h f doc :
  c_definedSymbols (contents (readDocument h f doc)) =
    Some <$> (doc ≫= λ l, definedObjects (uri f) l
                            ++ includeObjects (uri f) l)
  ∧ c_includedFiles (contents (readDocument h f doc)) =
      Some <$> (doc ≫= includeObjects (uri f)).
Proof.
  split.
  - change (c_definedSymbols (contents (readDocument h f doc)))
      with (deref (readDocument h f doc).1
              (definedSymbols (readDocument h f doc).2)).
    rewrite (readDocument_deref_other h f doc definedSymbols)
      by (unfold otherRef; tauto).
    apply scan_deref_defined.
  - change (c_includedFiles (contents (readDocument h f doc)))
      with (deref (readDocument h f doc).1
              (includedFiles (readDocument h f doc).2)).
    rewrite (readDocument_deref_other h f doc includedFiles)
      by (unfold otherRef; tauto).
    apply scan_deref_included.
Qed.

(** X4: [macros] holds, in document order, one symbol for each line whose
    instruction starts with [macro]: the label of the line under its stored
    text when the line has one, the data field otherwise. *)
Theorem macros_content h f doc :
  c_macros (contents (readDocument h f doc)) =
  Some <$> (withPrefixes doc ≫= λ pl, macroObjects (uri f) pl.1 pl.2).
Proof.
  change (c_macros (contents (readDocument h f doc)))
    with (deref (readDocument h f doc).1 (macros (readDocument h f doc).2)).
  rewrite (readDocument_deref_other h f doc macros)
    by (unfold otherRef; tauto).
  apply scan_deref_macros.
Qed.

(** ** More on the first loop: call targets, include directory, labels *)

Lemma scan_subroutines h f doc :
  subroutines (this (scan (scanStart h f) doc)) =
  data <$> filter (λ l, isCall l = true) doc.
Proof.
  induction doc as [|l doc IH] using rev_ind; [done|].
  rewrite scan_snoc, scanLine_subroutines, IH, filter_app, fmap_app.
  f_equal. destruct (isCall l) eqn:E.
  - by rewrite filter_cons_True, filter_nil.
  - rewrite filter_cons_False, filter_nil; [done|]. by rewrite E.
Qed.

(** X5: [subroutines] lists the data field of every line whose lower-cased
    instruction contains [bsr], in document order, duplicates kept, and
    nothing of what the file object held before the call. *)
Theorem subroutines_content h f doc :
  subroutines (readDocument h f doc).2 =
  data <$> filter (λ l, isCall l = true) doc.
Proof.
  rewrite readDocument_file. apply scan_subroutines.
Qed.

Global Instance isIncdir_dec l : Decision (isIncdir l).
Proof. unfold isIncdir. apply _. Defined.

(** X6: [includeDir] is the data field, without its double quotes, of the
    last [incdir] line of the document, and the empty string when the
    document has none, whatever the file object held before the call. *)
Theorem includeDir_content h f doc :
  includeDir (readDocument h f doc).2 =
  from_option (λ l, Str.removeAll quote (data l)) ""
    (last (filter isIncdir doc)).
Proof.
  rewrite readDocument_file.
  induction doc as [|l doc IH] using rev_ind; [done|].
  rewrite scan_snoc, scanLine_includeDir, filter_app.
  case_bool_decide as Hi.
  - rewrite filter_cons_True, filter_nil by done. by rewrite last_snoc.
  - rewrite filter_cons_False, filter_nil, app_nil_r by done. exact IH.
Qed.

Lemma scanLine_deref_labels st l os :
  deref (heap st) (labels (this st)) = Some <$> os →
  deref (heap (scanLine st l)) (labels (this (scanLine st l))) =
  Some <$> (os ++ (if isLabelLine l then [labelSymbol st l] else [])).
Proof.
  intros H0. rewrite scanLine_labels.
  destruct (g_heap _ _ (scanLine_grows st l)) as [O HO].
  destruct (isLabelLine l) eqn:Em.
  - rewrite deref_app, fmap_app. f_equal.
    + rewrite HO. by apply deref_keep.
    + unfold deref. simpl. rewrite scanLine_labelSymbol; [done|].
      by destruct (isLabelLine_labelled l Em) as [-> _].
  - rewrite !app_nil_r, HO. by apply deref_keep.
Qed.

(** The label objects as the first loop leaves them. *)
Lemma scan_deref_labels h f doc :
  deref (heap (scan (scanStart h f) doc))
    (labels (this (scan (scanStart h f) doc)))
  = Some <$> (withPrefixes doc ≫= λ pl, labelObjects (uri f) pl.1 pl.2).
Proof.
  induction doc as [|l doc IH] using rev_ind; [done|].
  rewrite scan_snoc, withPrefixes_snoc, bind_app, bind_singleton.
  rewrite (scanLine_deref_labels _ _ _ IH). simpl. unfold labelObjects.
  do 2 f_equal. destruct (isLabelLine l) eqn:E; [|done].
  f_equal. apply labelSymbol_stored. by apply isLabelLine_labelled.
Qed.

Lemma labelOf_deref (H : Store) rs os :
  deref H rs = Some <$> os → labelOf H <$> rs = getLabel <$> os.
Proof.
  revert os. induction rs as [|r rs IH]; intros [|o os] Heq; try done.
  injection Heq as Hr Hrs. simpl. f_equal; [|by apply IH].
  unfold labelOf. by rewrite Hr.
Qed.

(** X7: the texts of the symbols of [labels] after [readDocument] are, in
    document order, the stored texts of the labelled lines whose
    instruction is no macro keyword: the label without its first colon,
    after the text of the nearest preceding global label when it is
    local. *)
Theorem labels_texts h f doc :
  labelOf (readDocument h f doc).1 <$> labels (readDocument h f doc).2 =
  getLabel <$> (withPrefixes doc ≫= λ pl, labelObjects (uri f) pl.1 pl.2).
Proof.
  rewrite <- (labelOf_deref _ _ _ (scan_deref_labels h f doc)).
  rewrite readDocument_file. apply list_fmap_ext. intros _ r _.
  rewrite readDocument_store. apply track_labelOf.
Qed.

(** ** More on the second loop *)

Lemma track_no_subs before ls t :
  inSub t = false →
  objects (track [] before t ls) = objects t.
Proof.
  revert t. induction ls as [|l ls IH]; intros t Hi; [done|].
  rewrite run_cons.
  destruct (trackLabel_flags [] before t l) as [_ Hf].
  pose proof (trackLabel_objects [] before t l) as Ho.
  rewrite (bool_decide_eq_false_2 (labelOf (objects t) l ∈ []))
    in Hf, Ho by apply not_elem_of_nil.
  rewrite Hi in Hf, Ho. rewrite IH; [done|].
  rewrite Hf. by destruct (bool_decide _).
Qed.

(** X8: in a document without any call instruction the second loop alters
    nothing: every symbol of [labels] keeps the range of its label field
    and is its own parent. *)
Theorem labels_content_without_calls h f doc :
  (∀ l, l ∈ doc → isCall l = false) →
  c_labels (contents (readDocument h f doc)) =
  Some <$> (withPrefixes doc ≫= λ pl, labelObjects (uri f) pl.1 pl.2).
Proof.
  intros Hno.
  change (c_labels (contents (readDocument h f doc)))
    with (deref (readDocument h f doc).1 (labels (readDocument h f doc).2)).
  rewrite <- (scan_deref_labels h f doc), readDocument_file. f_equal.
  rewrite readDocument_store.
  rewrite (scan_subroutines h f doc).
  replace (filter (λ l, isCall l = true) doc) with (@nil ASMLine).
  - by apply track_no_subs.
  - symmetry. apply elem_of_nil_inv. intros l Hl.
    apply list_elem_of_filter in Hl as [Hc Hin].
    rewrite (Hno l Hin) in Hc. discriminate.
Qed.

Lemma parentOf_setParent_cases s i (h : Store) r :
  parentOf (alter (setParent s) i h) r = parentOf h r
  ∨ (r = i ∧ parentOf (alter (setParent s) i h) r = s).
Proof.
  destruct (decide (i = r)) as [->|Hne].
  - destruct (decide (r < length h)).
    + right. by rewrite parentOf_setParent_eq.
    + left. unfold parentOf. rewrite list_lookup_alter_eq.
      by rewrite lookup_ge_None_2 by lia.
  - left. by apply parentOf_setParent_ne.
Qed.

Lemma rangeOf_setRange_cases R i (h : Store) r :
  rangeOf (alter (setRange R) i h) r = rangeOf h r
  ∨ (r = i ∧ rangeOf (alter (setRange R) i h) r = R).
Proof.
  destruct (decide (i = r)) as [->|Hne].
  - destruct (decide (r < length h)).
    + right. by rewrite rangeOf_setRange_eq.
    + left. unfold rangeOf. rewrite list_lookup_alter_eq.
      by rewrite lookup_ge_None_2 by lia.
  - left. by apply rangeOf_setRange_ne.
Qed.

Lemma track_inv_start subs L (H : Store) :
  track_inv subs L H {| objects := H; inSub := false; lastParent := None |}.
Proof.
  split; simpl; try done.
  - intros r. by left.
  - intros r. apply contains_refl.
Qed.

Lemma trackLabel_inv subs before L H t l :
  l ∈ L → track_inv subs L H t →
  track_inv subs L H (trackLabel subs before t l).
Proof.
  intros Hl [Klab Kpt Kown Kpar Kgrow Kkept].
  destruct (trackLabel_flags subs before t l) as [Hp _].
  pose proof (trackLabel_objects subs before t l) as Ho.
  assert (∀ r, labelOf (objects (trackLabel subs before t l)) r = labelOf H r)
    as Klab' by (intros r; by rewrite step_labelOf).
  destruct (bool_decide (labelOf (objects t) l ∈ subs)) eqn:Es.
  { apply bool_decide_eq_true in Es. rewrite Klab in Es.
    split; rewrite ?Ho; try done.
    intros p. rewrite Hp. intros [= <-]. done. }
  apply bool_decide_eq_false in Es. rewrite Klab in Es.
  assert (∀ p, lastParent (trackLabel subs before t l) = Some p →
               p ∈ L ∧ labelOf H p ∈ subs) as Kpt'
    by (intros p; rewrite Hp; apply Kpt).
  destruct (inSub t); [|by split; rewrite ?Ho].
  destruct (lastParent t) as [p|] eqn:Ep; [|by split; rewrite ?Ho].
  destruct (Kpt p eq_refl) as [HpL Hps].
  cbn zeta in Ho.
  split; try done; rewrite Ho; intros r.
  - intros Hr. rewrite parentOf_setRange.
    rewrite parentOf_setParent_ne; [by apply Kown|]. congruence.
  - rewrite parentOf_setRange.
    destruct (parentOf_setParent_cases (labelOf (objects t) p) l (objects t) r)
      as [->|[-> ->]]; [apply Kpar|].
    right. exists p. by rewrite Klab.
  - rewrite !rangeOf_setParent.
    destruct (rangeOf_setRange_cases
                (union (rangeOf (objects t) p) (rangeOf (objects t) l)) p
                (alter (setParent (labelOf (objects t) p)) l (objects t)) r)
      as [->|[-> ->]].
    + rewrite rangeOf_setParent. apply Kgrow.
    + eapply contains_trans; [apply contains_union_l | apply Kgrow].
  - intros Hr. rewrite rangeOf_setRange_ne, rangeOf_setParent;
      [by apply Kkept | congruence].
Qed.

Lemma track_inv_run subs before L H ls t :
  (∀ x, x ∈ ls → x ∈ L) → track_inv subs L H t →
  track_inv subs L H (track subs before t ls).
Proof.
  revert t. induction ls as [|l ls IH]; intros t Hsub Ht; [done|].
  rewrite run_cons. apply IH.
  - intros x Hx. by apply Hsub, list_elem_of_further.
  - apply trackLabel_inv; [|done]. apply Hsub, list_elem_of_here.
Qed.

Lemma readDocument_inv h f doc :
  track_inv (subroutines (readDocument h f doc).2)
    (labels (readDocument h f doc).2)
    (heap (scan (scanStart h f) doc))
    {| objects := (readDocument h f doc).1;
       inSub := inSub (inferBoundaries (scan (scanStart h f) doc));
       lastParent :=
         lastParent (inferBoundaries (scan (scanStart h f) doc)) |}.
Proof.
  rewrite readDocument_file.
  pose proof (track_inv_run
    (subroutines (this (scan (scanStart h f) doc)))
    (labelsBeforeRts (scan (scanStart h f) doc))
    (labels (this (scan (scanStart h f) doc)))
    (heap (scan (scanStart h f) doc))
    (labels (this (scan (scanStart h f) doc)))
    (trackStart (scan (scanStart h f) doc))
    (λ x Hx, Hx) (track_inv_start _ _ _)) as Hinv.
  by destruct Hinv.
Qed.

(** The object of a label line, as the first loop leaves it at the end of
    the document. *)
Lemma label_line_heap h f pre l post :
  isLabelLine l = true →
  ∃ r, labelObject h f pre l r
       ∧ r ∈ labels (readDocument h f (pre ++ l :: post)).2
       ∧ heap (scan (scanStart h f) (pre ++ l :: post)) !! r =
           Some (newSymbol (storedLabel pre l) (uri f) (labelRange l) None).
Proof.
  intros Hl.
  destruct (label_line_object h f pre l post Hl) as (r & Ho & Hh & Hin & _).
  exists r. split_and!; try done.
  rewrite cons_snoc_app. by apply scan_heap_mono.
Qed.

(** X9: the parent of a label symbol after [readDocument] is its own
    stored text or the text of a label of the file that is a call target;
    a label that is itself a call target is always its own parent. *)
Theorem label_parent h f pre l post :
  isLabelLine l = true →
  ∃ r, labelObject h f pre l r
       ∧ (storedLabel pre l ∈ subroutines (readDocument h f (pre ++ l :: post)).2
          → parentOf (readDocument h f (pre ++ l :: post)).1 r
            = storedLabel pre l)
       ∧ (parentOf (readDocument h f (pre ++ l :: post)).1 r = storedLabel pre l
          ∨ ∃ p, p ∈ labels (readDocument h f (pre ++ l :: post)).2
                 ∧ labelOf (readDocument h f (pre ++ l :: post)).1 p
                   ∈ subroutines (readDocument h f (pre ++ l :: post)).2
                 ∧ parentOf (readDocument h f (pre ++ l :: post)).1 r
                   = labelOf (readDocument h f (pre ++ l :: post)).1 p).
Proof.
  intros Hl.
  destruct (label_line_heap h f pre l post Hl) as (r & Ho & Hin & Hh).
  destruct (readDocument_inv h f (pre ++ l :: post))
    as [Klab _ Kown Kpar _ _]. simpl in *.
  assert (parentOf (heap (scan (scanStart h f) (pre ++ l :: post))) r
          = storedLabel pre l) as Hp0 by (unfold parentOf; by rewrite Hh).
  assert (labelOf (heap (scan (scanStart h f) (pre ++ l :: post))) r
          = storedLabel pre l) as Hl0 by (unfold labelOf; by rewrite Hh).
  exists r. split_and!; [done| |].
  - intros Hs. rewrite <- Hp0. apply Kown. by rewrite Hl0.
  - destruct (Kpar r) as [Hown|(p & HpL & Hps & Hpar)].
    + left. by rewrite Hown.
    + right. exists p. by rewrite Klab.
Qed.


(** ** References of the result *)

Lemma scan_dcLabel_labels doc st :
  scan_wf st → dcLabel (this st) ⊆ labels (this st) →
  dcLabel (this (scan st doc)) ⊆ labels (this (scan st doc)).
Proof.
  revert st. induction doc as [|l doc IH]; intros st Hwf Hsub; [done|].
  rewrite scan_cons. apply IH; [by apply scanLine_wf|].
  intros r. rewrite scanLine_dcLabel, elem_of_app. intros [H|H].
  - rewrite scanLine_labels. apply elem_of_app. left. by apply Hsub.
  - destruct (isDataLine l); [|by apply elem_of_nil in H].
    destruct (lastLabel (scanLine st l)) as [r'|] eqn:E; simpl in H;
      [|by apply elem_of_nil in H].
    apply list_elem_of_singleton in H as ->.
    by apply (wf_last _ (scanLine_wf st l Hwf)).
Qed.

Lemma dcLabel_in_labels_scan h f doc :
  dcLabel (this (scan (scanStart h f) doc))
    ⊆ labels (this (scan (scanStart h f) doc)).
Proof.
  apply scan_dcLabel_labels; [apply scanStart_wf|]. simpl.
  intros r Hr. by apply elem_of_nil in Hr.
Qed.

(** X11: every data-definition owner is one of the symbols of [labels],
    the same object, so what the boundary loop does to a label is seen
    through [dcLabel] too. *)
Theorem dcLabel_in_labels h f doc :
  dcLabel (readDocument h f doc).2 ⊆ labels (readDocument h f doc).2.
Proof.
  rewrite readDocument_file. apply dcLabel_in_labels_scan.
Qed.

Lemma Forall_shiftRefs n rs : Forall (λ r, n ≤ r) (shiftRefs n rs).
Proof.
  unfold shiftRefs. apply Forall_fmap, Forall_forall. intros r _. simpl. lia.
Qed.

Lemma readDocument_length h f doc :
  length (readDocument h f doc).1 = length (heap (scan (scanStart h f) doc)).
Proof. rewrite readDocument_store. apply track_length. Qed.

(** X12: [readDocument] leaves the objects allocated before the call as
    they are, and every reference the file holds after the call points to
    an object allocated by this call. *)
Theorem readDocument_fresh h f doc :
  h `prefix_of` (readDocument h f doc).1
  ∧ Forall (λ r, length h ≤ r < length (readDocument h f doc).1)
      (labels (readDocument h f doc).2
       ++ dcLabel (readDocument h f doc).2
       ++ definedSymbols (readDocument h f doc).2
       ++ referredSymbols (readDocument h f doc).2
       ++ variables (readDocument h f doc).2
       ++ macros (readDocument h f doc).2
       ++ includedFiles (readDocument h f doc).2).
Proof.
  split.
  { rewrite readDocument_shift. simpl. by apply prefix_app_r. }
  assert (Forall (λ r, length h ≤ r)
            (labels (readDocument h f doc).2
             ++ dcLabel (readDocument h f doc).2
             ++ definedSymbols (readDocument h f doc).2
             ++ referredSymbols (readDocument h f doc).2
             ++ variables (readDocument h f doc).2
             ++ macros (readDocument h f doc).2
             ++ includedFiles (readDocument h f doc).2)) as Hlow.
  { rewrite readDocument_shift. simpl.
    repeat (apply Forall_app; split); apply Forall_shiftRefs. }
  assert (Forall (λ r, r < length (readDocument h f doc).1)
            (labels (readDocument h f doc).2
             ++ dcLabel (readDocument h f doc).2
             ++ definedSymbols (readDocument h f doc).2
             ++ referredSymbols (readDocument h f doc).2
             ++ variables (readDocument h f doc).2
             ++ macros (readDocument h f doc).2
             ++ includedFiles (readDocument h f doc).2)) as Hup.
  { rewrite readDocument_length.
    pose proof (dcLabel_in_labels_scan h f doc) as Hdc.
    rewrite readDocument_file.
    destruct (scan_sep_run doc _ (scanStart_sep h f)) as [Hl Ho].
    rewrite Forall_forall in Hl.
    apply Forall_forall. intros r Hr.
    rewrite !elem_of_app in Hr.
    destruct Hr as [H|[H|H]]; [by apply Hl | by apply Hl, Hdc |].
    apply Ho. unfold otherRef. tauto. }
  rewrite Forall_forall in Hlow, Hup. apply Forall_forall. intros r Hr.
  split; [by apply Hlow | by apply Hup].
Qed.

(** ** Merging completions by label *)

Section Merge.
Context {Item : Type} (itemLabel : Item → string).

Local Abbreviation fmap_of := (fileMap itemLabel).
Local Abbreviation clean := (cleanAndReorder itemLabel).

Lemma mapSet_absent {V} k (v : V) m :
  k ∉ m.*1 → mapSet k v m = m ++ [(k, v)].
Proof.
  induction m as [|[k' v'] m IH]; intros Hk; [done|]. simpl in *.
  apply not_elem_of_cons in Hk as [Hne Hk].
  rewrite decide_False by done. by rewrite IH.
Qed.

Lemma mapSet_keys_present {V} k (v : V) m :
  k ∈ m.*1 → (mapSet k v m).*1 = m.*1.
Proof.
  induction m as [|[k' v'] m IH]; intros Hk; [by apply elem_of_nil in Hk|].
  simpl in *. destruct (decide (k' = k)) as [->|Hne]; [done|].
  simpl. f_equal. apply IH. apply elem_of_cons in Hk as [Hk|Hk]; [congruence|done].
Qed.

Lemma mapSet_keys {V} k (v : V) m :
  (mapSet k v m).*1 = if decide (k ∈ m.*1) then m.*1 else m.*1 ++ [k].
Proof.
  destruct (decide (k ∈ m.*1)) as [Hk|Hk].
  - by apply mapSet_keys_present.
  - rewrite mapSet_absent by done. by rewrite fmap_app.
Qed.

Lemma mapSet_NoDup {V} k (v : V) m :
  NoDup m.*1 → NoDup (mapSet k v m).*1.
Proof.
  intros Hm. rewrite mapSet_keys. destruct (decide _) as [Hk|Hk]; [done|].
  apply NoDup_app. split_and!; [done| |apply NoDup_singleton].
  intros x Hx Hx'. apply list_elem_of_singleton in Hx' as ->. done.
Qed.

Lemma mapSet_elem {V} k (v : V) m k' v' :
  NoDup m.*1 →
  (k', v') ∈ mapSet k v m ↔
  (k' = k ∧ v' = v) ∨ (k' ≠ k ∧ (k', v') ∈ m).
Proof.
  induction m as [|[k0 v0] m IH]; intros Hm; simpl.
  - rewrite list_elem_of_singleton. split.
    + intros [= -> ->]. by left.
    + intros [[-> ->]|[_ H]]; [done|by apply elem_of_nil in H].
  - simpl in Hm. apply NoDup_cons in Hm as [Hk0 Hm].
    destruct (decide (k0 = k)) as [->|Hne].
    + rewrite !elem_of_cons. split.
      * intros [[= -> ->]|H]; [by left|]. right. split; [|by right].
        intros ->. apply Hk0. apply list_elem_of_fmap.
        by exists (k, v').
      * intros [[-> ->]|[Hne [[= -> _]|H]]]; [by left|done|by right].
    + rewrite !elem_of_cons, IH by done. split.
      * intros [[= -> ->]|[H|[Hn H]]]; [right; split; [done|by left]
          |by left| right; split; [done|by right]].
      * intros [H|[Hn [[= -> ->]|H]]]; [right; by left|by left
          |right; right; by split].
Qed.

Lemma fileMap_snoc cs c :
  fmap_of (cs ++ [c]) = mapSet (itemLabel c) c (fmap_of cs).
Proof. unfold fileMap. by rewrite foldl_snoc. Qed.

Lemma fileMap_NoDup cs : NoDup (fmap_of cs).*1.
Proof.
  induction cs as [|c cs IH] using rev_ind; [constructor|].
  rewrite fileMap_snoc. by apply mapSet_NoDup.
Qed.

(** An entry of the map is the last completion that carries its label. *)
Lemma fileMap_elem cs k v :
  (k, v) ∈ fmap_of cs ↔
  ∃ a b, cs = a ++ v :: b ∧ itemLabel v = k
         ∧ Forall (λ x, itemLabel x ≠ k) b.
Proof.
  revert k v. induction cs as [|c cs IH] using rev_ind; intros k v.
  - split; [intros H; by apply elem_of_nil in H|].
    intros (a & b & H & _). by destruct a.
  - rewrite fileMap_snoc, mapSet_elem by apply fileMap_NoDup. split.
    + intros [[-> ->]|[Hne Hin]].
      * exists cs, []. split_and!; [done|done|constructor].
      * apply IH in Hin as (a & b & -> & Hl & Hb).
        exists a, (b ++ [c]). rewrite <- app_assoc. split_and!; [done|done|].
        apply Forall_app. split; [done|]. constructor; [|constructor].
        congruence.
    + intros (a & b & Hcs & Hl & Hb).
      destruct b as [|x b _] using rev_ind.
      * apply app_inj_tail in Hcs as [-> ->]. by left.
      * rewrite app_comm_cons, app_assoc in Hcs.
        apply app_inj_tail in Hcs as [-> ->].
        apply Forall_app in Hb as [Hb Hx]. apply Forall_inv in Hx.
        right. split; [congruence|]. apply IH. by exists a, b.
Qed.

Lemma fileMap_keys cs :
  (fmap_of cs).*1 = reverse (remove_dups (reverse (itemLabel <$> cs))).
Proof.
  induction cs as [|c cs IH] using rev_ind; [done|].
  rewrite fileMap_snoc, mapSet_keys, fmap_app, reverse_app. simpl.
  rewrite IH.
  destruct (decide_rel elem_of (itemLabel c) (reverse (itemLabel <$> cs)))
    as [Hin|Hnot].
  - rewrite decide_True; [done|].
    by rewrite elem_of_reverse, elem_of_remove_dups.
  - rewrite decide_False, reverse_cons; [done|].
    by rewrite elem_of_reverse, elem_of_remove_dups.
Qed.

Lemma clean_labels cs : itemLabel <$> clean cs = (fmap_of cs).*1.
Proof.
  unfold cleanAndReorder. rewrite <- list_fmap_compose.
  apply list_fmap_ext. intros _ [k v] Hin%list_elem_of_lookup_2. simpl.
  apply fileMap_elem in Hin as (_ & _ & _ & Hl & _). done.
Qed.

(** X13: the merged list offers every label of the input once, at the
    place where the label first occurs. *)
Theorem cleanAndReorder_labels cs :
  itemLabel <$> cleanAndReorder itemLabel cs = reverse (remove_dups (reverse (itemLabel <$> cs)))
  ∧ NoDup (itemLabel <$> cleanAndReorder itemLabel cs)
  ∧ (∀ s, s ∈ itemLabel <$> cleanAndReorder itemLabel cs ↔ s ∈ itemLabel <$> cs).
Proof.
  rewrite clean_labels. split_and!.
  - apply fileMap_keys.
  - apply fileMap_NoDup.
  - intros s.
    by rewrite fileMap_keys, elem_of_reverse, elem_of_remove_dups,
         elem_of_reverse.
Qed.

Lemma clean_elem cs c :
  c ∈ cleanAndReorder itemLabel cs ↔
  ∃ a b, cs = a ++ c :: b ∧ Forall (λ x, itemLabel x ≠ itemLabel c) b.
Proof.
  unfold cleanAndReorder. rewrite list_elem_of_fmap. split.
  - intros ([k v] & -> & Hin). simpl.
    apply fileMap_elem in Hin as (a & b & -> & <- & Hb). by exists a, b.
  - intros (a & b & -> & Hb). exists (itemLabel c, c). split; [done|].
    apply fileMap_elem. by exists a, b.
Qed.

(** X14: the completion kept for a label is the last one of the input
    that carries it. *)
Theorem cleanAndReorder_last cs c :
  c ∈ cleanAndReorder itemLabel cs ↔
  ∃ a b, cs = a ++ c :: b ∧ Forall (λ x, itemLabel x ≠ itemLabel c) b.
Proof.
  split.
  - intros Hc. by apply clean_elem.
  - intros (a & b & Heq & Hb). apply clean_elem. by exists a, b.
Qed.

(** X15: when the listing of the include directory is followed by the
    listing of the directory of the document, as in
    [provideCompletionForIncludes], a name found in both is offered with
    the completion of the second listing. *)
Theorem cleanAndReorder_concat cs1 cs2 c :
  c ∈ cleanAndReorder itemLabel (cs1 ++ cs2) →
  c ∈ cs2 ∨ (c ∈ cs1 ∧ Forall (λ x, itemLabel x ≠ itemLabel c) cs2).
Proof.
  intros (a & b & Heq & Hb)%clean_elem.
  destruct (decide (length a < length cs1)) as [Hlt|Hge].
  - right.
    assert (cs1 !! length a = Some c) as Hc.
    { rewrite <- (lookup_app_l cs1 cs2) by done. rewrite Heq.
      by rewrite lookup_app_r, Nat.sub_diag. }
    split; [by eapply list_elem_of_lookup_2|].
    apply Forall_forall. intros x Hx.
    rewrite Forall_forall in Hb. apply Hb.
    assert (cs2 = drop (length cs1 - length (a ++ [c])) b) as ->.
    { rewrite <- (drop_app_length cs1 cs2) at 1.
      rewrite Heq, cons_snoc_app.
      apply drop_app_ge. rewrite length_app. simpl. lia. }
    by eapply subseteq_drop.
  - left.
    assert (cs2 !! (length a - length cs1) = Some c) as Hc.
    { rewrite <- (lookup_app_r cs1 cs2) by lia. rewrite Heq.
      by rewrite lookup_app_r, Nat.sub_diag. }
    by eapply list_elem_of_lookup_2.
Qed.

Lemma fileMap_NoDup_id cs :
  NoDup (itemLabel <$> cs) → fmap_of cs = (λ c, (itemLabel c, c)) <$> cs.
Proof.
  induction cs as [|c cs IH] using rev_ind; intros Hnd; [done|].
  rewrite fmap_app in Hnd. apply NoDup_app in Hnd as (Hnd & Hnot & _).
  rewrite fileMap_snoc, IH, fmap_app by done.
  apply mapSet_absent. rewrite <- list_fmap_compose. intros Hin.
  apply (Hnot (itemLabel c)); [done|apply list_elem_of_here].
Qed.

(** X16: a list without two completions of the same label is left as it
    is, so merging twice is merging once. *)
Theorem cleanAndReorder_idempotent cs :
  (NoDup (itemLabel <$> cs) → cleanAndReorder itemLabel cs = cs)
  ∧ cleanAndReorder itemLabel (cleanAndReorder itemLabel cs) = cleanAndReorder itemLabel cs.
Proof.
  assert (∀ l, NoDup (itemLabel <$> l) → clean l = l) as Hid.
  { intros l Hl. unfold cleanAndReorder. rewrite fileMap_NoDup_id by done.
    rewrite <- list_fmap_compose. apply list_fmap_id. }
  split; [apply Hid|].
  apply Hid. rewrite clean_labels. apply fileMap_NoDup.
Qed.

End Merge.

(** ** The label prefix of a local completion *)

Lemma take_snoc_lookup {A} (l : list A) n :
  take (S n) l = take n l ++ option_list (l !! n).
Proof.
  destruct (l !! n) as [x|] eqn:E; simpl.
  - by apply take_S_r.
  - apply lookup_ge_None in E. rewrite !take_ge by lia. by rewrite app_nil_r.
Qed.

Lemma last_omap_snoc (texts : list string) n :
  last (omap matchLeadingWord (take (S n) texts)) =
  match texts !! n ≫= matchLeadingWord with
  | Some m => Some m
  | None => last (omap matchLeadingWord (take n texts))
  end.
Proof.
  rewrite take_snoc_lookup, omap_app.
  destruct (texts !! n) as [t|]; simpl.
  - destruct (matchLeadingWord t) as [m|]; simpl.
    + by rewrite last_snoc.
    + by rewrite app_nil_r.
  - by rewrite app_nil_r.
Qed.

(** X17: the loop that looks for the previous global label returns the
    leading word of the nearest line, from the line of the word upwards,
    that starts with a word character, and the empty string when no such
    line exists. *)
Theorem findLabelPrefix_nearest texts i :
  findLabelPrefix texts i =
  default "" (last (omap matchLeadingWord (take (S i) texts))).
Proof.
  induction i as [|i IH].
  - rewrite last_omap_snoc. simpl.
    by destruct (texts !! 0 ≫= matchLeadingWord).
  - rewrite findLabelPrefix_S, last_omap_snoc.
    by destruct (texts !! S i ≫= matchLeadingWord).
Qed.

Lemma substring_whole s : String.substring 0 (String.length s) s = s.
Proof. induction s as [|c s IH]; simpl; [done|]. by rewrite IH. Qed.

Lemma substring_skip p s m :
  String.substring (String.length p) m (p +:+ s) = String.substring 0 m s.
Proof. induction p as [|c p IH]; [done|]. exact IH. Qed.

Lemma length_append p s :
  String.length (p +:+ s) = String.length p + String.length s.
Proof.
  induction p as [|c p IH]; [done|].
  change (S (String.length (p +:+ s)) = S (String.length p + String.length s)).
  by rewrite IH.
Qed.

Lemma startsWith_split s p :
  Str.startsWith s p = true → ∃ r, s = p +:+ r.
Proof.
  revert s. induction p as [|c p IH]; intros s H.
  - by exists s.
  - destruct s as [|d s]; [done|]. simpl in H.
    apply andb_true_iff in H as [Hc Hs]. apply Ascii.eqb_eq in Hc as ->.
    destruct (IH s Hs) as [r ->]. by exists r.
Qed.

(** X18: a label returned by the lookup starts with the word looked up,
    hence with [labelPrefix]; the text shown for it is what follows
    [labelPrefix], so that the prefix and the text shown make up the label
    again: for a local label under [FOO.bar] the completion reads [.bar]. *)
Theorem completionText_strips_prefix labelPrefix label :
  Str.startsWith label labelPrefix = true →
  labelPrefix +:+ completionText labelPrefix label = label.
Proof.
  intros [r ->]%startsWith_split. f_equal.
  unfold completionText, Str.substringFrom.
  rewrite substring_skip, length_append.
  replace (String.length labelPrefix + String.length r
           - String.length labelPrefix) with (String.length r) by lia.
  apply substring_whole.
Qed.

Lemma completionText_strips_prefix_witness :
  "FOO" +:+ completionText "FOO" "FOO.bar" = "FOO.bar".
Proof. apply (completionText_strips_prefix "FOO" "FOO.bar"). reflexivity. Defined.

(** ** Instances of the properties that have a premise *)

Lemma labels_content_without_calls_witness :
  c_labels (contents (readDocument [] (newFile "a.s") plainDoc)) =
  Some <$> [newSymbol "FOO" "a.s" (labelRange fooLine) None;
            newSymbol "FOO.bar" "a.s" (labelRange barLine) None].
Proof.
  apply (labels_content_without_calls [] (newFile "a.s") plainDoc).
  intros l Hl. unfold plainDoc in Hl.
  repeat (apply elem_of_cons in Hl as [->|Hl]; [reflexivity|]).
  by apply elem_of_nil in Hl.
Defined.

Lemma label_parent_witness :
  ∃ r, labelObject [] (newFile "a.s") (take 4 nestedDoc)
         (sampleLine 4 "C:" "" "") r
       ∧ ("C" ∈ subroutines (readDocument [] (newFile "a.s") nestedDoc).2
          → parentOf (readDocument [] (newFile "a.s") nestedDoc).1 r = "C")
       ∧ (parentOf (readDocument [] (newFile "a.s") nestedDoc).1 r = "C"
          ∨ ∃ p, p ∈ labels (readDocument [] (newFile "a.s") nestedDoc).2
                 ∧ labelOf (readDocument [] (newFile "a.s") nestedDoc).1 p
                   ∈ subroutines (readDocument [] (newFile "a.s") nestedDoc).2
                 ∧ parentOf (readDocument [] (newFile "a.s") nestedDoc).1 r
                   = labelOf (readDocument [] (newFile "a.s") nestedDoc).1 p).
Proof.
  apply (label_parent [] (newFile "a.s") (take 4 nestedDoc)
           (sampleLine 4 "C:" "" "") (drop 5 nestedDoc)).
  reflexivity.
Defined.


Lemma cleanAndReorder_concat_witness :
  {| fileLabel := "a.i"; fileSortText := "other" |} ∈ drop 2 sampleItems
  ∨ ({| fileLabel := "a.i"; fileSortText := "other" |} ∈ take 2 sampleItems
     ∧ Forall (λ x, fileLabel x ≠ "a.i") (drop 2 sampleItems)).
Proof.
  apply (cleanAndReorder_concat fileLabel (take 2 sampleItems)
           (drop 2 sampleItems)).
  vm_compute. apply list_elem_of_here.
Defined.

Lemma cleanAndReorder_idempotent_witness :
  cleanAndReorder fileLabel (take 2 sampleItems) = take 2 sampleItems.
Proof.
  apply (proj1 (cleanAndReorder_idempotent fileLabel (take 2 sampleItems))).
  vm_compute. repeat constructor.
  - intros H. apply list_elem_of_singleton in H. discriminate.
  - intros H. by apply elem_of_nil in H.
Defined.

(** ** Versions: comparison and the choice of the best tag *)

Section VersionFacts.
Import Download.
Context {V : Type} `{EqDecision V} (ltV : V → V → bool).
Context (ltV_irrefl : ∀ x, ltV x x = false).
Context (ltV_trans :
  ∀ x y z, ltV x y = true → ltV y z = true → ltV x z = true).

Local Abbreviation lt := (numLt ltV).
Local Abbreviation gt := (numGt ltV).
Local Abbreviation cmp := (compare ltV).

Lemma numLt_irrefl a : lt a a = false.
Proof using ltV_irrefl. destruct a; simpl; [apply ltV_irrefl|done]. Qed.

Lemma numLt_trans a b c : lt a b = true → lt b c = true → lt a c = true.
Proof using ltV_trans.
  destruct a, b, c; simpl; try done. apply ltV_trans.
Qed.

Lemma numLt_asym a b : lt a b = true → lt b a = false.
Proof using ltV_irrefl ltV_trans.
  intros H. destruct (lt b a) eqn:E; [|done].
  by rewrite <- (numLt_irrefl a), (numLt_trans a b a H E).
Qed.

Lemma numEq_eq (a b : option V) : numEq a b = true → a = b ∧ is_Some a.
Proof.
  destruct a, b; simpl; try done. intros ->%bool_decide_eq_true. eauto.
Qed.

(** X19: comparing in the other direction gives the opposite result,
    also for versions with [NaN] fields. *)
Theorem compare_antisymmetric (a b : Version V) :
  cmp a b = (- cmp b a)%Z.
Proof using ltV_irrefl ltV_trans.
  unfold compare, numGt.
  pose proof (numLt_asym (major a) (major b)).
  pose proof (numLt_asym (major b) (major a)).
  pose proof (numLt_asym (minor a) (minor b)).
  pose proof (numLt_asym (minor b) (minor a)).
  pose proof (numLt_asym (increment a) (increment b)).
  pose proof (numLt_asym (increment b) (increment a)).
  destruct (lt (major a) (major b)), (lt (major b) (major a)),
    (lt (minor a) (minor b)), (lt (minor b) (minor a)),
    (lt (increment a) (increment b)), (lt (increment b) (increment a));
    try done; naive_solver.
Qed.

(** For two versions with the major and minor numbers of a third one, the
    increments decide. *)
Lemma compare_compatible (v a b : Version V) :
  isCompatible v a = true → isCompatible v b = true →
  cmp a b = if gt (increment b) (increment a) then 1%Z
            else if lt (increment b) (increment a) then (-1)%Z else 0%Z.
Proof using ltV_irrefl.
  unfold isCompatible. rewrite !andb_true_iff.
  intros [[Ha1 _]%numEq_eq [Ha2 _]%numEq_eq]
         [[Hb1 _]%numEq_eq [Hb2 _]%numEq_eq].
  unfold compare, numGt. rewrite <- Ha1, <- Hb1, <- Ha2, <- Hb2.
  by rewrite !numLt_irrefl.
Qed.

(** X20: compatible versions have the same major and minor numbers, none
    of them [NaN], and are compared by their increments alone; a version
    with a [NaN] major or minor number is compatible with no version, not
    even with itself. *)
Theorem isCompatible_compare (a b : Version V) :
  isCompatible a b = true →
  major a = major b ∧ minor a = minor b
  ∧ is_Some (major a) ∧ is_Some (minor a)
  ∧ cmp a b = if gt (increment b) (increment a) then 1%Z
              else if lt (increment b) (increment a) then (-1)%Z else 0%Z.
Proof using ltV_irrefl.
  intros Hc. pose proof Hc as Hc'. unfold isCompatible in Hc'.
  apply andb_true_iff in Hc' as [[H1 H1']%numEq_eq [H2 H2']%numEq_eq].
  split_and!; try done.
  apply (compare_compatible a); [|done].
  unfold isCompatible. destruct H1' as [x ->], H2' as [y ->]. simpl.
  by rewrite !bool_decide_eq_true_2.
Qed.

Lemma keepBest_fold osName v (tags : list (TagInfo V)) :
  match foldl (keepBest ltV osName v) None tags with
  | Some best =>
      best ∈ tags ∧ eligible osName v best = true
      ∧ Forall (λ t, eligible osName v t = true →
                     (cmp (version best) (version t) ≤ 0)%Z) tags
  | None => Forall (λ t, eligible osName v t = false) tags
  end.
Proof using ltV_irrefl ltV_trans.
  induction tags as [|t tags IH] using rev_ind; [by constructor|].
  rewrite foldl_snoc.
  assert (cmp (version t) (version t) ≤ 0)%Z as Hself.
  { unfold compare, numGt. by rewrite !numLt_irrefl. }
  unfold keepBest, eligible in *.
  destruct (noExtension t || bool_decide (extension t = Some osName)) eqn:Eos;
    simpl.
  2:{ destruct (foldl _ None tags) as [best|].
      - destruct IH as (Hin & He & Hall). split_and!; [|done|].
        + apply elem_of_app. by left.
        + apply Forall_app. split; [done|]. constructor; [|constructor].
          by rewrite Eos.
      - apply Forall_app. split; [done|]. constructor; [|constructor].
        by rewrite Eos. }
  destruct (isCompatible v (version t)) eqn:Ec; simpl.
  2:{ destruct (foldl _ None tags) as [best|].
      - destruct IH as (Hin & He & Hall). split_and!; [|done|].
        + apply elem_of_app. by left.
        + apply Forall_app. split; [done|]. constructor; [|constructor].
          by rewrite Eos, Ec.
      - apply Forall_app. split; [done|]. constructor; [|constructor].
        by rewrite Eos, Ec. }
  destruct (foldl _ None tags) as [best|].
  - destruct IH as (Hin & He & Hall).
    apply andb_true_iff in He as [Hos Hcb].
    destruct (bool_decide (0 < cmp (version best) (version t))%Z) eqn:Hgt;
      [apply bool_decide_eq_true in Hgt | apply bool_decide_eq_false in Hgt].
    + split_and!.
      * apply elem_of_app. right. apply list_elem_of_here.
      * by rewrite Eos, Ec.
      * apply Forall_app. split; [|by constructor].
        eapply Forall_impl; [exact Hall|]. simpl. intros u Hu Heu.
        specialize (Hu Heu). apply andb_true_iff in Heu as [_ Hcu].
        rewrite (compare_compatible v) in Hgt, Hu |- * by done.
        unfold numGt in *.
        destruct (lt (increment (version best)) (increment (version t)))
          eqn:E1;
          [|by destruct (lt (increment (version t))
                          (increment (version best)))].
        destruct (lt (increment (version t)) (increment (version u))) eqn:E2;
          [|by destruct (lt (increment (version u)) (increment (version t)))].
        by rewrite (numLt_trans _ _ _ E1 E2) in Hu.
    + split_and!.
      * apply elem_of_app. by left.
      * by rewrite Hos, Hcb.
      * apply Forall_app. split; [done|]. constructor; [|constructor].
        intros _. lia.
  - split_and!.
    + apply elem_of_app. right. apply list_elem_of_here.
    + by rewrite Eos, Ec.
    + apply Forall_app. split; [|by constructor].
      eapply Forall_impl; [exact IH|]. simpl. by intros u ->.
Qed.

(** X21: [getZipURL] answers with the version and the archive of a tag
    that passes both tests (no extension or the extension of the platform,
    and compatible with the version asked for) and that no other such tag
    exceeds; when no tag passes them, or the tags cannot be read, it
    answers with the version asked for and the archive of the branch of
    the platform. *)
Theorem getZipURL_best platform branchURL v (tagInfos : option (list (TagInfo V))) :
  (∃ tags best,
     tagInfos = Some tags ∧ best ∈ tags
     ∧ eligible (getOsName platform) v best = true
     ∧ Forall (λ t, eligible (getOsName platform) v t = true →
                    (cmp (version best) (version t) ≤ 0)%Z) tags
     ∧ getZipURL ltV platform branchURL v tagInfos =
         (version best, zipball_url best))
  ∨ ((tagInfos = None
      ∨ ∃ tags, tagInfos = Some tags
                ∧ Forall (λ t, eligible (getOsName platform) v t = false) tags)
     ∧ getZipURL ltV platform branchURL v tagInfos =
         (v, branchURL +:+ "/" +:+ getBranchName platform +:+ ".zip")).
Proof using ltV_irrefl ltV_trans.
  destruct tagInfos as [tags|]; [|right; split; [by left|done]].
  pose proof (keepBest_fold (getOsName platform) v tags) as Hf.
  unfold getZipURL.
  destruct (foldl _ None tags) as [best|].
  - left. destruct Hf as (Hin & He & Hall). by exists tags, best.
  - right. split; [|done]. right. by exists tags.
Qed.

End VersionFacts.

Lemma Z_ltb_irrefl (x : Z) : (x <? x)%Z = false.
Proof. apply Z.ltb_irrefl. Qed.

Lemma Z_ltb_trans (x y z : Z) :
  (x <? y)%Z = true → (y <? z)%Z = true → (x <? z)%Z = true.
Proof. rewrite !Z.ltb_lt. lia. Qed.

Lemma compare_antisymmetric_witness :
  Download.compare Z.ltb (ver 1 2 3) (ver 1 3 0)
  = (- Download.compare Z.ltb (ver 1 3 0) (ver 1 2 3))%Z.
Proof.
  apply (compare_antisymmetric Z.ltb Z_ltb_irrefl Z_ltb_trans).
Defined.

Lemma isCompatible_compare_witness :
  Download.major (ver 1 2 3) = Download.major (ver 1 2 7)
  ∧ Download.minor (ver 1 2 3) = Download.minor (ver 1 2 7)
  ∧ is_Some (Download.major (ver 1 2 3))
  ∧ is_Some (Download.minor (ver 1 2 3))
  ∧ Download.compare Z.ltb (ver 1 2 3) (ver 1 2 7) = 1%Z.
Proof.
  apply (isCompatible_compare Z.ltb Z_ltb_irrefl (ver 1 2 3) (ver 1 2 7)).
  reflexivity.
Defined.

Section VersionOrder.
Import Download.
Context {V : Type} `{EqDecision V} (ltV : V → V → bool).
Context (ltV_irrefl : ∀ x, ltV x x = false).
Context (ltV_total : ∀ x y, ltV x y = false → ltV y x = false → x = y).

(** X22: for versions without [NaN] fields, [compare] answers 0 exactly
    when the two versions have the same three numbers. *)
Theorem compare_zero_iff (a b : Version V) :
  noNaN a → noNaN b → compare ltV a b = 0%Z ↔ a = b.
Proof using ltV_irrefl ltV_total.
  intros ([x1 H1] & [x2 H2] & [x3 H3]) ([y1 G1] & [y2 G2] & [y3 G3]).
  destruct a as [a1 a2 a3], b as [b1 b2 b3]. simpl in *. subst.
  unfold compare, numGt. simpl. split.
  - pose proof (ltV_total x1 y1). pose proof (ltV_total x2 y2).
    pose proof (ltV_total x3 y3).
    destruct (ltV x1 y1), (ltV y1 x1), (ltV x2 y2), (ltV y2 x2),
      (ltV x3 y3), (ltV y3 x3); try done.
    intros _. f_equal; f_equal; auto.
  - intros [= -> -> ->]. by rewrite !ltV_irrefl.
Qed.

End VersionOrder.

Lemma Z_ltb_total (x y : Z) :
  (x <? y)%Z = false → (y <? x)%Z = false → x = y.
Proof. rewrite !Z.ltb_ge. lia. Qed.

Lemma compare_zero_iff_witness :
  Download.compare Z.ltb (ver 1 2 3) (ver 1 2 3) = 0%Z
  ↔ ver 1 2 3 = ver 1 2 3.
Proof.
  apply (compare_zero_iff Z.ltb Z_ltb_irrefl Z_ltb_total);
    unfold noNaN; simpl; eauto.
Defined.

Lemma getZipURL_best_witness :
  (∃ tags best,
     Some sampleTags = Some tags ∧ best ∈ tags
     ∧ Download.eligible (Download.getOsName "darwin") (ver 1 2 0) best = true
     ∧ Forall (λ t, Download.eligible (Download.getOsName "darwin")
                      (ver 1 2 0) t = true →
                    (Download.compare Z.ltb (Download.version best)
                       (Download.version t) ≤ 0)%Z) tags
     ∧ Download.getZipURL Z.ltb "darwin" "https://branch" (ver 1 2 0)
         (Some sampleTags)
       = (Download.version best, Download.zipball_url best))
  ∨ ((Some sampleTags = None
      ∨ ∃ tags, Some sampleTags = Some tags
                ∧ Forall (λ t, Download.eligible (Download.getOsName "darwin")
                                 (ver 1 2 0) t = false) tags)
     ∧ Download.getZipURL Z.ltb "darwin" "https://branch" (ver 1 2 0)
         (Some sampleTags)
       = (ver 1 2 0,
          "https://branch" +:+ "/" +:+ Download.getBranchName "darwin"
            +:+ ".zip")).
Proof.
  apply (getZipURL_best Z.ltb Z_ltb_irrefl Z_ltb_trans "darwin"
           "https://branch" (ver 1 2 0) (Some sampleTags)).
Defined.

Example getZipURL_sample :
  Download.getZipURL Z.ltb "darwin" "https://branch" (ver 1 2 0)
    (Some sampleTags)
  = (ver 1 2 7, "https://zip/1.2.7-osx").
Proof. reflexivity. Qed.
